(** * A shallow embedding of the page translator of src/liq.js

    The [Translator] class is modelled as a state monad with exceptions
    and an event trace.  The DOM is the tree of elements the tree walker
    visits, with the text content of every text node kept in the state
    (text nodes are named by a [nat] identity, the key of the JS [Map]
    [originalTexts]).  Strings are [String.string]; a character is read
    as a Latin-1 code unit.  The network ([fetch]) and the behaviour of
    [localStorage] are an environment [Env]. *)

From Stdlib Require Import Ascii ZArith String.
From stdpp Require Import base gmap strings list.

Local Open Scope string_scope.

(* ------------------------------------------------------------------ *)
(** ** String helpers of the JS runtime *)

(** Characters removed by [String.prototype.trim] in the Latin-1 range:
    TAB, LF, VT, FF, CR, SPACE and NO-BREAK SPACE. *)
Definition is_ws (c : ascii) : bool :=
  match nat_of_ascii c with
  | 9 | 10 | 11 | 12 | 13 | 32 | 160 => true
  | _ => false
  end.

Fixpoint drop_ws (l : list ascii) : list ascii :=
  match l with
  | [] => []
  | c :: r => if is_ws c then drop_ws r else l
  end.

(** [s.trim()] *)
Definition trim (s : string) : string :=
  string_of_list_ascii
    (rev (drop_ws (rev (drop_ws (list_ascii_of_string s))))).

(** [c.toLowerCase()] on ASCII letters. *)
Definition lower_ascii (c : ascii) : ascii :=
  let n := nat_of_ascii c in
  if Nat.leb 65 n && Nat.leb n 90 then ascii_of_nat (n + 32) else c.

Fixpoint toLowerCase (s : string) : string :=
  match s with
  | EmptyString => EmptyString
  | String c r => String (lower_ascii c) (toLowerCase r)
  end.

Definition is_digit (c : ascii) : bool :=
  let n := nat_of_ascii c in Nat.leb 48 n && Nat.leb n 57.

(** [/^\d+$/.test(s)] *)
Definition all_digits (s : string) : bool :=
  match s with
  | EmptyString => false
  | _ => forallb is_digit (list_ascii_of_string s)
  end.

(** [/^(http|www\.|@)/i.test(s)] *)
Definition url_like (s : string) : bool :=
  let l := toLowerCase s in
  String.prefix "http" l || String.prefix "www." l || String.prefix "@" l.

(** The double quote character. *)
Definition dquote : ascii := "034"%char.

(** [s.replace(/^"|"$/g, '')]: one leading and one trailing double quote
    are removed; the two matches never overlap. *)
Definition strip_quotes (s : string) : string :=
  let l := list_ascii_of_string s in
  let l1 := match l with
            | c :: r => if Ascii.eqb c dquote then r else l
            | [] => []
            end in
  let l2 := match rev l1 with
            | c :: r => if Ascii.eqb c dquote then rev r else l1
            | [] => []
            end in
  string_of_list_ascii l2.

(* ------------------------------------------------------------------ *)
(** ** JS values of the translation API response *)

Inductive jsval :=
| JUndefined
| JNull
| JBool (b : bool)
| JNum (z : Z)
| JStr (s : string)
| JObject.

Definition truthy (v : jsval) : bool :=
  match v with
  | JUndefined | JNull => false
  | JObject => true
  | JBool b => b
  | JNum z => negb (Z.eqb z 0)
  | JStr s => negb (String.eqb s "")
  end.

(** [v !== 200] *)
Definition not_200 (v : jsval) : bool :=
  match v with
  | JNum z => negb (Z.eqb z 200)
  | _ => true
  end.

(** The parsed body [data]: [data.responseStatus] and
    [data.responseData?.translatedText] ([JUndefined] when
    [responseData] is absent or nullish). *)
Record body := mkBody {
  responseStatus : jsval;
  translatedText : jsval
}.

(** What [fetch(...)] gives: a rejected promise (network error), or a
    response with its [ok] flag and the result of [response.json()]
    ([None] when the body does not parse). *)
Inductive fetch_outcome :=
| FetchReject
| FetchResponse (ok : bool) (json : option body).

(* ------------------------------------------------------------------ *)
(** ** Records, state, environment *)

(** The value stored in [originalTexts]: [{ id: `text_${index}`,
    original, parentTag }]; [id] keeps the index. *)
Record TextRecord := mkRec {
  id : nat;
  original : string;
  parentTag : string
}.

(** The fields of the translator and the parts of the page it touches:
    [dom] is [node.textContent] of each text node, [store] is
    [localStorage], [loading] is the loading indicator (and the disabled
    select), [docLang] is [document.documentElement.lang]. *)
Record St := mkSt {
  dom : gmap nat string;
  originalTexts : list (nat * TextRecord);
  cache : gmap string string;
  store : gmap string string;
  currentLang : string;
  isTranslating : bool;
  loading : bool;
  docLang : string
}.

Definition set_dom f (s : St) : St :=
  mkSt (f (dom s)) (originalTexts s) (cache s) (store s) (currentLang s)
       (isTranslating s) (loading s) (docLang s).
Definition set_originalTexts f (s : St) : St :=
  mkSt (dom s) (f (originalTexts s)) (cache s) (store s) (currentLang s)
       (isTranslating s) (loading s) (docLang s).
Definition set_cache f (s : St) : St :=
  mkSt (dom s) (originalTexts s) (f (cache s)) (store s) (currentLang s)
       (isTranslating s) (loading s) (docLang s).
Definition set_store f (s : St) : St :=
  mkSt (dom s) (originalTexts s) (cache s) (f (store s)) (currentLang s)
       (isTranslating s) (loading s) (docLang s).
Definition set_currentLang l (s : St) : St :=
  mkSt (dom s) (originalTexts s) (cache s) (store s) l
       (isTranslating s) (loading s) (docLang s).
Definition set_isTranslating b (s : St) : St :=
  mkSt (dom s) (originalTexts s) (cache s) (store s) (currentLang s)
       b (loading s) (docLang s).
Definition set_loading b (s : St) : St :=
  mkSt (dom s) (originalTexts s) (cache s) (store s) (currentLang s)
       (isTranslating s) b (docLang s).
Definition set_docLang l (s : St) : St :=
  mkSt (dom s) (originalTexts s) (cache s) (store s) (currentLang s)
       (isTranslating s) (loading s) l.

(** The network and the storage: [fetch_resp text lang] answers the
    request for [text] and [en|lang]; [getItem_throws] / [setItem_throws]
    say that [localStorage.getItem] / [setItem] throw (storage denied,
    quota exceeded). *)
Record Env := mkEnv {
  fetch_resp : string -> string -> fetch_outcome;
  getItem_throws : bool;
  setItem_throws : bool
}.

(** Observable events: a request to the API, a read of [localStorage],
    the 300ms pause, a suspension at an [await] (with the busy flag and
    the loading indicator at that point), and console output. *)
Inductive event :=
| EFetch (text lang : string)
| EStoreRead (key : string)
| EPause (ms : Z)
| EAwait (busy shown : bool)
| EWarn
| EError
| ELog.

(* ------------------------------------------------------------------ *)
(** ** The monad: state, exceptions, trace *)

Inductive res (A : Type) := Ok (a : A) | Exn.
Arguments Ok {A} a.
Arguments Exn {A}.

Definition M (A : Type) : Type := St -> res A * St * list event.

Global Instance M_ret : MRet M := fun A a st => (Ok a, st, []).
Global Instance M_bind : MBind M := fun A B f m st =>
  match m st with
  | (Ok a, st1, e1) =>
      match f a st1 with (r, st2, e2) => (r, st2, (e1 ++ e2)%list) end
  | (Exn, st1, e1) => (Exn, st1, e1)
  end.

Definition get : M St := fun st => (Ok st, st, []).
Definition modify (f : St -> St) : M unit := fun st => (Ok tt, f st, []).
Definition emit (e : event) : M unit := fun st => (Ok tt, st, [e]).
Definition throw {A} : M A := fun st => (Exn, st, []).

(** [try { body } catch { handler }] *)
Definition try_catch {A} (body : M A) (handler : M A) : M A := fun st =>
  match body st with
  | (Exn, st1, e1) =>
      match handler st1 with (r, st2, e2) => (r, st2, (e1 ++ e2)%list) end
  | r => r
  end.

(** [try { body } finally { fin }] *)
Definition try_finally {A} (body : M A) (fin : M unit) : M A := fun st =>
  match body st with
  | (r, st1, e1) =>
      match fin st1 with
      | (Ok _, st2, e2) => (r, st2, (e1 ++ e2)%list)
      | (Exn, st2, e2) => (Exn, st2, (e1 ++ e2)%list)
      end
  end.

(** The settled value of a promise: [None] when it rejected. *)
Definition attempt {A} (m : M A) : M (option A) :=
  try_catch (x ← m; mret (Some x)) (mret None).

(** A suspension at an [await]. *)
Definition suspend : M unit :=
  st ← get; emit (EAwait (isTranslating st) (loading st)).

(* ------------------------------------------------------------------ *)
(** ** The document and [extractText] *)

(** Elements carry their [tagName] and whether they have the
    [data-no-translate] attribute; text nodes carry their identity. *)
#[local] Set Warnings "-register-all".
Inductive tree :=
| TText (n : nat)
| TElem (tagName : string) (no_translate : bool) (kids : list tree).

(** [document.documentElement] and [document.body]. *)
Record Doc := mkDoc {
  html_no_translate : bool;
  body_no_translate : bool;
  body_kids : list tree
}.

Definition textContent (d : gmap nat string) (n : nat) : string :=
  default "" (d !! n).

(** The [acceptNode] filter for a text node [n] whose parent element has
    tag [parentTagName]; [closest] says whether the parent or one of its
    ancestors carries [data-no-translate]. *)
Definition acceptNode (d : gmap nat string) (parentTagName : string)
    (closest : bool) (n : nat) : bool :=
  if String.eqb (toLowerCase parentTagName) "option" then false
  else if closest then false
  else
    let text := trim (textContent d n) in
    if String.eqb text "" || Nat.ltb (String.length text) 2 then false
    else if all_digits text then false
    else if url_like text then false
    else true.

(** The tree walker in document order with [NodeFilter.SHOW_TEXT]: it
    yields each accepted text node with its parent's tag name. *)
Fixpoint walk (d : gmap nat string) (parentTagName : string) (closest : bool)
    (t : tree) : list (nat * string) :=
  match t with
  | TText n => if acceptNode d parentTagName closest n then [(n, parentTagName)] else []
  | TElem tag nt kids =>
      (fix walk_kids (ks : list tree) : list (nat * string) :=
         match ks with
         | [] => []
         | k :: ks' => (walk d tag (closest || nt) k ++ walk_kids ks')%list
         end) kids
  end.

Definition walk_body (d : gmap nat string) (doc : Doc) : list (nat * string) :=
  flat_map (walk d "BODY" (html_no_translate doc || body_no_translate doc))
           (body_kids doc).

Definition has_node (recs : list (nat * TextRecord)) (n : nat) : bool :=
  existsb (fun p => Nat.eqb (fst p) n) recs.

Fixpoint lookup_node (recs : list (nat * TextRecord)) (n : nat) : option TextRecord :=
  match recs with
  | [] => None
  | (m, r) :: recs' => if Nat.eqb m n then Some r else lookup_node recs' n
  end.

(** [nodes.forEach((node, index) => ...)]: [Map.set] of a new key
    appends it. *)
Fixpoint record_nodes (d : gmap nat string) (recs : list (nat * TextRecord))
    (nodes : list (nat * string)) (index : nat) : list (nat * TextRecord) :=
  match nodes with
  | [] => recs
  | (n, ptag) :: nodes' =>
      let text := trim (textContent d n) in
      let recs' :=
        if negb (String.eqb text "") && negb (has_node recs n)
        then (recs ++ [(n, mkRec index text (toLowerCase ptag))])%list
        else recs in
      record_nodes d recs' nodes' (S index)
  end.

Definition extractText (doc : Doc) : M unit :=
  st ← get;
  modify (set_originalTexts
            (fun recs => record_nodes (dom st) recs (walk_body (dom st) doc) 0));;
  emit ELog.

(* ------------------------------------------------------------------ *)
(** ** [getCachedTranslation] *)

Definition cacheKey (text targetLang : string) : string :=
  text ++ "_" ++ targetLang.

Definition localStorageKey (ck : string) : string := "translation_" ++ ck.

Definition getItem (env : Env) (key : string) : M (option string) :=
  emit (EStoreRead key);;
  if getItem_throws env then throw else
  st ← get; mret (store st !! key).

Definition setItem (env : Env) (key v : string) : M unit :=
  if setItem_throws env then throw else modify (set_store <[key := v]>).

(** The synchronous part of the call, up to its first [await]. *)
Inductive start := SHit (v : string) | SMiss | SThrow.

Definition gct_start (env : Env) (text targetLang : string) : M start :=
  let ck := cacheKey text targetLang in
  st ← get;
  match cache st !! ck with
  | Some v => mret (SHit v)
  | None =>
      r ← attempt (getItem env (localStorageKey ck));
      match r with
      | None => mret SThrow
      | Some (Some cached) =>
          if negb (String.eqb cached "")
          then modify (set_cache <[ck := cached]>);; mret (SHit cached)
          else mret SMiss
      | Some None => mret SMiss
      end
  end.

(** The [try { ... } catch { ... }] block that calls the API. *)
Definition gct_fetch (env : Env) (text targetLang : string) : M string :=
  let ck := cacheKey text targetLang in
  let lsk := localStorageKey ck in
  try_catch
    (emit (EFetch text targetLang);;
     match fetch_resp env text targetLang with
     | FetchReject => throw
     | FetchResponse ok json =>
         if negb ok then throw else
         match json with
         | None => throw
         | Some data =>
             if not_200 (responseStatus data) || negb (truthy (translatedText data))
             then emit EWarn;; mret text
             else
               match translatedText data with
               | JStr s =>
                   let translated := trim (strip_quotes s) in
                   modify (set_cache <[ck := translated]>);;
                   setItem env lsk translated;;
                   mret translated
               | _ => throw (* [replace] is not a function *)
               end
         end
     end)
    (emit EWarn;; mret text).

Definition getCachedTranslation (env : Env) (text targetLang : string) : M string :=
  s ← gct_start env text targetLang;
  match s with
  | SHit v => mret v
  | SMiss => gct_fetch env text targetLang
  | SThrow => throw
  end.

(* ------------------------------------------------------------------ *)
(** ** [translateToLanguage] *)

(** A callback of [batch.map(async (node) => ...)] after its synchronous
    part: the record [data] it read and how its call of
    [getCachedTranslation] started; [PReject] when reading [data.original]
    threw. *)
Inductive pending :=
| PRun (node : nat) (data : TextRecord) (s : start)
| PReject.

(** The rest of [getCachedTranslation] after its synchronous part. *)
Definition settle (env : Env) (targetLang : string) (data : TextRecord) (s : start) : M string :=
  match s with
  | SHit v => mret v
  | SMiss => gct_fetch env (original data) targetLang
  | SThrow => throw
  end.

(** [if (translated && translated !== data.original) node.textContent = translated;] *)
Definition apply_result (node : nat) (data : TextRecord) (translated : string) : M unit :=
  if negb (String.eqb translated "") && negb (String.eqb translated (original data))
  then modify (set_dom <[node := translated]>)
  else mret tt.

(** The synchronous part of every callback, in the order of [batch]. *)
Fixpoint start_all (env : Env) (targetLang : string) (batch : list nat) : M (list pending) :=
  match batch with
  | [] => mret []
  | node :: batch' =>
      st ← get;
      p ← (match lookup_node (originalTexts st) node with
           | Some data => s ← gct_start env (original data) targetLang; mret (PRun node data s)
           | None => mret PReject
           end);
      ps ← start_all env targetLang batch';
      mret (p :: ps)
  end.

(** The continuations of the callbacks; the result says whether one of
    them rejected. *)
Fixpoint finish_all (env : Env) (targetLang : string) (ps : list pending) : M bool :=
  match ps with
  | [] => mret false
  | PReject :: ps' => _ ← finish_all env targetLang ps'; mret true
  | PRun node data s :: ps' =>
      r ← attempt (translated ← settle env targetLang data s;
                   apply_result node data translated);
      rej ← finish_all env targetLang ps';
      mret (rej || bool_decide (r = None))
  end.

(** [await Promise.all(batch.map(...))] *)
Definition process_batch (env : Env) (targetLang : string) (batch : list nat) : M unit :=
  ps ← start_all env targetLang batch;
  suspend;;
  rejected ← finish_all env targetLang ps;
  if (rejected : bool) then throw (A:=unit) else mret tt.

(** [await new Promise(resolve => setTimeout(resolve, ms))] *)
Definition pause (ms : Z) : M unit := emit (EPause ms);; suspend.

Definition batchSize : nat := 8.

(** [for (let i = 0; i < nodes.length; i += batchSize) { ... }]; the
    loop runs at most [length nodes] times. *)
Fixpoint batch_loop (env : Env) (targetLang : string) (nodes : list nat)
    (i : nat) (fuel : nat) : M unit :=
  match fuel with
  | O => mret tt
  | S fuel' =>
      if Nat.ltb i (length nodes) then
        process_batch env targetLang (take batchSize (drop i nodes));;
        (if Nat.ltb (i + batchSize) (length nodes) then pause 300 else mret tt);;
        batch_loop env targetLang nodes (i + batchSize) fuel'
      else mret tt
  end.

Definition translateToLanguage (env : Env) (targetLang : string) : M unit :=
  st ← get;
  let nodes := map fst (originalTexts st) in
  batch_loop env targetLang nodes 0 (length nodes).

(* ------------------------------------------------------------------ *)
(** ** [restoreOriginal], [setLoading], [translatePage] *)

Definition restoreOriginal : M unit :=
  st ← get;
  modify (set_dom (fun d =>
    foldl (fun d' (p : nat * TextRecord) => <[fst p := original (snd p)]> d')
          d (originalTexts st))).

Definition setLoading (show : bool) : M unit := modify (set_loading show).

(** The code inside [try { ... }] of [translatePage]. *)
Definition translatePage_body (env : Env) (targetLang : string) : M unit :=
  (if String.eqb targetLang "en"
   then restoreOriginal;; suspend
   else translateToLanguage env targetLang;; suspend);;
  modify (set_currentLang targetLang);;
  modify (set_docLang targetLang);;
  setItem env "site_language" targetLang;;
  emit ELog.

Definition translatePage (env : Env) (targetLang : string) : M unit :=
  st ← get;
  if isTranslating st || String.eqb targetLang (currentLang st) then mret tt else
  (modify (set_isTranslating true);;
   setLoading true;;
   try_finally
     (try_catch (translatePage_body env targetLang) (emit EError))
     (modify (set_isTranslating false);; setLoading false)).

(* ------------------------------------------------------------------ *)
(** ** The [DOMContentLoaded] handler *)

(** [new Translator()]: the fields of a new translator; the page, the
    storage and the indicator are those of the document. *)
Definition Translator_new (st : St) : St :=
  mkSt (dom st) [] ∅ (store st) "en" false (loading st) (docLang st).

(** [languageSelect.querySelector(`option[value="${savedLang}"]`)]: the
    page answers whether the select has such an option, or [None] when
    the selector is not valid and the call throws. *)
Definition querySelector_option (query : string -> option bool) (v : string) : M bool :=
  match query v with
  | Some b => mret b
  | None => throw
  end.

(** The handler itself: it returns the value given to
    [languageSelect.value] (if any) and [savedLang]; the [change]
    listener and [window.translator] are not state of the model. *)
Definition onDOMContentLoaded (env : Env) (query : string -> option bool)
    : M (option string * string) :=
  modify Translator_new;;
  v ← getItem env "site_language";
  let savedLang := match v with
                   | Some s => if String.eqb s "" then "en" else s
                   | None => "en"
                   end in
  found ← (if negb (String.eqb savedLang "")
           then querySelector_option query savedLang else mret false);
  if (found : bool) then
    modify (set_docLang savedLang);; mret (Some savedLang, savedLang)
  else mret (None, savedLang).

(** The page start with no user input before the timers fire: the
    handler, then its 500ms timer ([extractText]), then its 1000ms timer
    ([translatePage(savedLang)], set only when [savedLang !== 'en']).
    An exception of the handler is reported on the console; the 500ms
    timer, set before the exception, still fires. *)
Definition startup (env : Env) (query : string -> option bool) (doc : Doc)
    : M (option string) :=
  r ← attempt (onDOMContentLoaded env query);
  (match r with None => emit EError | Some _ => mret tt end);;
  extractText doc;;
  match r with
  | Some (sel, savedLang) =>
      (if negb (String.eqb savedLang "en") then translatePage env savedLang else mret tt);;
      mret sel
  | None => mret None
  end.

(* ------------------------------------------------------------------ *)
(** ** Reading of the spec used by the statements *)

(** The remote call succeeds (HTTP OK, [responseStatus] 200 and a
    present [translatedText] string); the raw [translatedText]. *)
Definition remote_success (o : fetch_outcome) : option string :=
  match o with
  | FetchResponse true (Some data) =>
      if not_200 (responseStatus data) then None
      else match translatedText data with
           | JStr s => if String.eqb s "" then None else Some s
           | _ => None
           end
  | _ => None
  end.

(** Both cache tiers miss for [(text, lang)] and reading the persisted
    tier does not throw. *)
Definition tiers_miss (env : Env) (st : St) (text lang : string) : Prop :=
  cache st !! cacheKey text lang = None /\
  getItem_throws env = false /\
  (store st !! localStorageKey (cacheKey text lang) = None \/
   store st !! localStorageKey (cacheKey text lang) = Some "").

(** The page with every element carrying [data-no-translate] removed,
    together with its subtree. *)
Fixpoint prune (t : tree) : list tree :=
  match t with
  | TText n => [TText n]
  | TElem tag nt kids =>
      if nt then []
      else [TElem tag false
              ((fix prune_kids (ks : list tree) : list tree :=
                  match ks with
                  | [] => []
                  | k :: ks' => (prune k ++ prune_kids ks')%list
                  end) kids)]
  end.

Definition prune_doc (doc : Doc) : Doc :=
  mkDoc false false
    (if html_no_translate doc || body_no_translate doc then []
     else flat_map prune (body_kids doc)).

(** A language code without an underscore. *)
Definition no_underscore (l : string) : Prop :=
  forall c, In c (list_ascii_of_string l) -> c <> "_"%char.

(** The partition of the spec: consecutive batches of 8 in order. *)
Fixpoint chunks (fuel : nat) (l : list nat) : list (list nat) :=
  match fuel with
  | O => []
  | S fuel' =>
      match l with
      | [] => []
      | _ :: _ => take batchSize l :: chunks fuel' (drop batchSize l)
      end
  end.

Definition batches (l : list nat) : list (list nat) := chunks (length l) l.

(** The page mutator as the spec words it: every batch in turn, with the
    300ms pause between two batches. *)
Fixpoint run_batches (env : Env) (targetLang : string) (bs : list (list nat)) : M unit :=
  match bs with
  | [] => mret tt
  | [b] => process_batch env targetLang b
  | b :: bs' => process_batch env targetLang b;; pause 300;; run_batches env targetLang bs'
  end.

(** The events at [await] points satisfy [Q] on the busy flag and the
    loading indicator; other events are unconstrained. *)
Definition awaits (Q : bool -> bool -> Prop) (e : event) : Prop :=
  match e with
  | EAwait b l => Q b l
  | _ => True
  end.

(** ** Sample pages and API answers *)

(** A success answer of the API with [translatedText] [s]. *)
Definition api_ok (s : string) : fetch_outcome :=
  FetchResponse true (Some (mkBody (JNum 200) (JStr s))).

(** The API answers every request with a quoted string; storage works. *)
Definition env_bonjour : Env :=
  mkEnv (fun _ _ => api_ok (String dquote ("Bonjour le monde" ++ String dquote ""))) false false.

(** The API answers with a string made of two quote characters. *)
Definition env_quotes : Env :=
  mkEnv (fun _ _ => api_ok (String dquote (String dquote ""))) false false.


(** A page whose one text node [<p>Hello world</p>] is recorded. *)
Definition st_hello : St :=
  mkSt {[0 := "Hello world"]} [(0, mkRec 0 "Hello world" "p")] ∅ ∅ "en" false false "en".

(** The network is down. *)
Definition env_down : Env := mkEnv (fun _ _ => FetchReject) false false.

(** The API answers [t] for [l] with ["[l] t"]. *)
Definition env_tag : Env :=
  mkEnv (fun t l => api_ok ("[" ++ l ++ "] " ++ t)) false false.

(** A fresh translator on a page whose text nodes have the given texts. *)
Definition fresh (d : gmap nat string) : St :=
  mkSt d [] ∅ ∅ "en" false false "en".

(** [<body><p>  Hello world </p></body>] *)
Definition page_p : Doc := mkDoc false false [TElem "P" false [TText 0]].
Definition page_p_text : gmap nat string := {[0 := "  Hello world "]}.

(** [<body><script>console.log(1)</script></body>] *)
Definition page_script : Doc := mkDoc false false [TElem "SCRIPT" false [TText 0]].
Definition page_script_text : gmap nat string := {[0 := "console.log(1)"]}.

(** Storage access is denied: [getItem] and [setItem] throw. *)
Definition env_no_storage : Env := mkEnv (fun _ _ => api_ok "Bonjour") true true.

(** The storage quota is exceeded: [setItem] throws, [getItem] works. *)
Definition env_quota : Env := mkEnv (fun _ _ => api_ok "Bonjour") false true.


(** The page of [st_hello] after a completed run to French. *)
Definition st_bonjour : St :=
  mkSt {[0 := "Bonjour le monde"]} [(0, mkRec 0 "Hello world" "p")] ∅ ∅ "fr" false false "fr".

(** Language selects: one with the options [en] and [fr], one with [en]
    only. *)
Definition select_en_fr (v : string) : option bool :=
  Some (String.eqb v "en" || String.eqb v "fr").
Definition select_en (v : string) : option bool := Some (String.eqb v "en").

(* ================================================================== *)
(** * Proofs *)

(** ** Invariants of monadic code: [I] holds of the state throughout and
    every emitted event satisfies [E]. *)
Definition Inv {A} (I : St -> Prop) (E : event -> Prop) (m : M A) : Prop :=
  forall st, I st -> match m st with (_, st', evs) => I st' /\ Forall E evs end.

Section InvRules.
Context (I : St -> Prop) (E : event -> Prop).

Lemma Inv_ret {A} (a : A) : Inv I E (mret a).
Proof. intros st H. cbn. auto. Qed.

Lemma Inv_bind {A B} (m : M A) (k : A -> M B) :
  Inv I E m -> (forall a, Inv I E (k a)) -> Inv I E (m ≫= k).
Proof.
  intros Hm Hk st H. unfold mbind, M_bind.
  specialize (Hm st H). destruct (m st) as [[[a|] st1] e1]; [|exact Hm].
  destruct Hm as [H1 He1]. specialize (Hk a st1 H1).
  destruct (k a st1) as [[r st2] e2]. destruct Hk as [H2 He2].
  split; [exact H2 | apply Forall_app; auto].
Qed.

Lemma Inv_get_bind {B} (k : St -> M B) :
  (forall s, I s -> Inv I E (k s)) -> Inv I E (get ≫= k).
Proof.
  intros Hk st H. unfold mbind, M_bind, get. specialize (Hk st H st H).
  destruct (k st st) as [[r st2] e2]. exact Hk.
Qed.

Lemma Inv_modify f : (forall st, I st -> I (f st)) -> Inv I E (modify f).
Proof. intros Hf st H. cbn. auto. Qed.

Lemma Inv_emit e : E e -> Inv I E (emit e).
Proof. intros He st H. cbn. auto. Qed.

Lemma Inv_throw {A} : Inv I E (throw (A:=A)).
Proof. intros st H. cbn. auto. Qed.

Lemma Inv_try_catch {A} (m h : M A) : Inv I E m -> Inv I E h -> Inv I E (try_catch m h).
Proof.
  intros Hm Hh st H. unfold try_catch. specialize (Hm st H).
  destruct (m st) as [[[a|] st1] e1]; [exact Hm|].
  destruct Hm as [H1 He1]. specialize (Hh st1 H1).
  destruct (h st1) as [[r st2] e2]. destruct Hh.
  split; [assumption | apply Forall_app; auto].
Qed.

Lemma Inv_try_finally {A} (m : M A) (f : M unit) :
  Inv I E m -> Inv I E f -> Inv I E (try_finally m f).
Proof.
  intros Hm Hf st H. unfold try_finally. specialize (Hm st H).
  destruct (m st) as [[r st1] e1]. destruct Hm as [H1 He1].
  specialize (Hf st1 H1). destruct (f st1) as [[[u|] st2] e2];
    destruct Hf; split; try assumption; apply Forall_app; auto.
Qed.

Lemma Inv_attempt {A} (m : M A) : Inv I E m -> Inv I E (attempt m).
Proof.
  intros Hm. unfold attempt. apply Inv_try_catch; [|apply Inv_ret].
  apply Inv_bind; [exact Hm | intros; apply Inv_ret].
Qed.
End InvRules.

Create HintDb inv.
#[export] Hint Resolve Inv_ret Inv_modify Inv_emit Inv_throw : inv.

(** One structural step on an [Inv] goal. *)
Ltac inv_step :=
  match goal with
  | |- Inv _ _ (mbind _ get) => apply Inv_get_bind; intros ? ?
  | |- Inv _ _ (mbind _ _) => apply Inv_bind; [|intros ?]
  | |- Inv _ _ (try_catch _ _) => apply Inv_try_catch
  | |- Inv _ _ (try_finally _ _) => apply Inv_try_finally
  | |- Inv _ _ (attempt _) => apply Inv_attempt
  | |- Inv _ _ (mret _) => apply Inv_ret
  | |- Inv _ _ throw => apply Inv_throw
  | |- Inv _ _ (if ?b then _ else _) => destruct b
  | |- Inv _ _ (match ?x with _ => _ end) => destruct x
  end.

(** ** Frame lemmas: the translation run touches only the text of nodes,
    the two cache tiers, and (in [translatePage]) the language fields. *)
Section Frame.
Context (I : St -> Prop) (Q : bool -> bool -> Prop).
Hypothesis I_dom : forall st f, I st -> I (set_dom f st).
Hypothesis I_cache : forall st f, I st -> I (set_cache f st).
Hypothesis I_store : forall st f, I st -> I (set_store f st).
Hypothesis I_await : forall st, I st -> Q (isTranslating st) (loading st).

Local Hint Resolve I_dom I_cache I_store : inv.

Ltac inv_auto :=
  repeat (solve [eauto with inv] || inv_step || (apply Inv_modify; eauto with inv) ||
          (apply Inv_emit; cbn; eauto with inv)).

Lemma Inv_suspend : Inv I (awaits Q) suspend.
Proof. unfold suspend. inv_auto. Qed.

Lemma Inv_getItem env key : Inv I (awaits Q) (getItem env key).
Proof. unfold getItem. inv_auto. Qed.

Lemma Inv_setItem env key v : Inv I (awaits Q) (setItem env key v).
Proof. unfold setItem. inv_auto. Qed.

Local Hint Resolve Inv_suspend Inv_getItem Inv_setItem : inv.

Lemma Inv_gct_start env text lang : Inv I (awaits Q) (gct_start env text lang).
Proof. unfold gct_start. cbv zeta. inv_auto. Qed.

Lemma Inv_gct_fetch env text lang : Inv I (awaits Q) (gct_fetch env text lang).
Proof. unfold gct_fetch. cbv zeta. inv_auto. Qed.

Local Hint Resolve Inv_gct_start Inv_gct_fetch : inv.

Lemma Inv_getCachedTranslation env text lang :
  Inv I (awaits Q) (getCachedTranslation env text lang).
Proof. unfold getCachedTranslation. inv_auto. Qed.

Lemma Inv_settle env lang data s : Inv I (awaits Q) (settle env lang data s).
Proof. unfold settle. inv_auto. Qed.

Lemma Inv_apply_result n data v : Inv I (awaits Q) (apply_result n data v).
Proof. unfold apply_result. inv_auto. Qed.

Local Hint Resolve Inv_settle Inv_apply_result : inv.

Lemma Inv_start_all env lang batch : Inv I (awaits Q) (start_all env lang batch).
Proof. induction batch; cbn [start_all]; inv_auto. Qed.

Lemma Inv_finish_all env lang ps : Inv I (awaits Q) (finish_all env lang ps).
Proof. induction ps as [|[] ps IH]; cbn [finish_all]; inv_auto. Qed.

Local Hint Resolve Inv_start_all Inv_finish_all : inv.

Lemma Inv_process_batch env lang batch : Inv I (awaits Q) (process_batch env lang batch).
Proof. unfold process_batch. inv_auto. Qed.

Lemma Inv_pause ms : Inv I (awaits Q) (pause ms).
Proof. unfold pause. inv_auto. Qed.

Local Hint Resolve Inv_process_batch Inv_pause : inv.

Lemma Inv_batch_loop env lang nodes i fuel :
  Inv I (awaits Q) (batch_loop env lang nodes i fuel).
Proof.
  revert i. induction fuel; intros i; cbn [batch_loop]; inv_auto.
Qed.

Lemma Inv_translateToLanguage env lang : Inv I (awaits Q) (translateToLanguage env lang).
Proof. unfold translateToLanguage. inv_auto. apply Inv_batch_loop. Qed.

Lemma Inv_restoreOriginal : Inv I (awaits Q) restoreOriginal.
Proof. unfold restoreOriginal. inv_auto. Qed.
End Frame.

(** ** Computing with the monad *)

Ltac mcomp :=
  unfold mbind, M_bind, mret, M_ret, get, modify, emit, throw,
         setLoading, try_finally, try_catch in *; cbn -[translatePage_body] in *.

Lemma Inv_translatePage_body (I : St -> Prop) (Q : bool -> bool -> Prop) env lang :
  (forall st f, I st -> I (set_dom f st)) ->
  (forall st f, I st -> I (set_cache f st)) ->
  (forall st f, I st -> I (set_store f st)) ->
  (forall st l, I st -> I (set_currentLang l st)) ->
  (forall st l, I st -> I (set_docLang l st)) ->
  (forall st, I st -> Q (isTranslating st) (loading st)) ->
  Inv I (awaits Q) (translatePage_body env lang).
Proof.
  intros Hd Hc Hs Hl Hdl Ha. unfold translatePage_body.
  repeat (inv_step || (apply Inv_modify; eauto) || (apply Inv_emit; cbn; eauto)
          || (apply (Inv_restoreOriginal I Q); auto)
          || (apply (Inv_suspend I Q); auto)
          || (apply (Inv_translateToLanguage I Q); auto)
          || (apply (Inv_setItem I Q); auto)).
Qed.

(** C8: [translatePage] returns at once, changing nothing, when a run is
    in flight or the target is the current language. *)
Theorem translatePage_noop env targetLang st :
  isTranslating st = true \/ targetLang = currentLang st ->
  translatePage env targetLang st = (Ok tt, st, []).
Proof.
  intros H. unfold translatePage. mcomp.
  destruct H as [H | H]; [rewrite H | rewrite H, String.eqb_refl, orb_true_r]; reflexivity.
Qed.

Lemma translatePage_noop_witness :
  (isTranslating (fresh ∅) = true \/ "en" = currentLang (fresh ∅)) /\
  translatePage env_bonjour "en" (fresh ∅) = (Ok tt, fresh ∅, []).
Proof.
  split; [right; reflexivity | apply translatePage_noop; right; reflexivity].
Defined.

(** C9: a run that is not a no-op holds the busy flag and the loading
    indicator at every [await], clears both at the end, logs a failure
    of its body and never propagates it. *)
Theorem translatePage_clears_flags env targetLang st :
  isTranslating st = false -> targetLang <> currentLang st ->
  match translatePage env targetLang st with
  | (r, st', evs) =>
      r = Ok tt /\ isTranslating st' = false /\ loading st' = false /\
      (forall b l, In (EAwait b l) evs -> b = true /\ l = true) /\
      (forall st_b evs_b,
         translatePage_body env targetLang
           (set_loading true (set_isTranslating true st)) = (Exn, st_b, evs_b) ->
         In EError evs)
  end.
Proof.
  intros Hb Hl. unfold translatePage. mcomp.
  rewrite Hb. destruct (String.eqb_spec targetLang (currentLang st)) as [E|_];
    [contradiction|]. cbn.
  pose proof (Inv_translatePage_body
                (fun s => isTranslating s = true /\ loading s = true)
                (fun b l => b = true /\ l = true) env targetLang)
    as Hinv.
  specialize (Hinv ltac:(intros []; cbn; auto) ltac:(intros []; cbn; auto)
                   ltac:(intros []; cbn; auto) ltac:(intros []; cbn; auto)
                   ltac:(intros []; cbn; auto) ltac:(intros ? []; auto)).
  specialize (Hinv (set_loading true (set_isTranslating true st)) (conj eq_refl eq_refl)).
  destruct (translatePage_body env targetLang
              (set_loading true (set_isTranslating true st))) as [[[[]|] stb] eb].
  all: destruct Hinv as [_ Hev]; cbn; rewrite !app_nil_r.
  all: refine (conj eq_refl (conj eq_refl (conj eq_refl (conj _ _)))).
  - intros b l Hin. exact (proj1 (List.Forall_forall _ _) Hev _ Hin).
  - intros ? ? Hx. discriminate.
  - intros b l Hin. apply in_app_or in Hin. destruct Hin as [Hin|[Hin|[]]];
      [exact (proj1 (List.Forall_forall _ _) Hev _ Hin) | discriminate].
  - intros ? ? _. apply in_or_app. right. left. reflexivity.
Qed.

Lemma translatePage_clears_flags_witness :
  isTranslating (fresh page_p_text) = false /\ "fr" <> currentLang (fresh page_p_text) /\
  match translatePage env_bonjour "fr" (fresh page_p_text) with
  | (r, st', evs) =>
      r = Ok tt /\ isTranslating st' = false /\ loading st' = false /\
      (forall b l, In (EAwait b l) evs -> b = true /\ l = true) /\
      (forall st_b evs_b,
         translatePage_body env_bonjour "fr"
           (set_loading true (set_isTranslating true (fresh page_p_text))) = (Exn, st_b, evs_b) ->
         In EError evs)
  end.
Proof.
  split; [reflexivity|]. split; [discriminate|].
  apply translatePage_clears_flags; [reflexivity | discriminate].
Defined.

(** ** The two cache tiers and the API call *)

Ltac gct_unfold :=
  unfold getCachedTranslation, gct_start, gct_fetch, getItem, setItem, attempt in *;
  cbv zeta in *; mcomp.

(** C2: when both tiers miss and the API call fails, the call returns the
    input text and leaves the whole state, both tiers included, as it
    was, after a request to the API; a later call from that state makes
    the request again. *)
Theorem getCachedTranslation_failure env text lang st :
  tiers_miss env st text lang ->
  remote_success (fetch_resp env text lang) = None ->
  match getCachedTranslation env text lang st with
  | (r, st', evs) => r = Ok text /\ st' = st /\ In (EFetch text lang) evs
  end.
Proof.
  intros (Hc & Hg & Hs) Hr. gct_unfold.
  rewrite Hc, Hg. cbn.
  destruct Hs as [-> | ->]; cbn.
  all: destruct (fetch_resp env text lang) as [|ok [[status tt]|]]; cbn in Hr |- *;
    [auto 10 | | ].
  all: destruct ok; cbn in Hr |- *; auto 10.
  all: destruct (not_200 status); cbn in Hr |- *; auto 10.
  all: destruct tt as [| | b | z | s' | ]; cbn in Hr |- *; auto 10.
  all: try (destruct b; cbn; auto 10).
  all: try (destruct (Z.eqb z 0); cbn; auto 10).
  all: destruct (String.eqb s' "") eqn:E; cbn in Hr |- *; [auto 10 | discriminate].
Qed.

Lemma getCachedTranslation_failure_witness :
  tiers_miss env_down (fresh ∅) "Hi" "fr" /\
  remote_success (fetch_resp env_down "Hi" "fr") = None /\
  match getCachedTranslation env_down "Hi" "fr" (fresh ∅) with
  | (r, st', evs) => r = Ok "Hi" /\ st' = fresh ∅ /\ In (EFetch "Hi" "fr") evs
  end.
Proof.
  assert (H : tiers_miss env_down (fresh ∅) "Hi" "fr")
    by (split; [reflexivity | split; [reflexivity | left; reflexivity]]).
  split; [exact H|]. split; [reflexivity|].
  apply getCachedTranslation_failure; [exact H | reflexivity].
Defined.




(** ** Cache keys *)

Lemma append_nil_l (s : string) : ("" ++ s)%string = s.
Proof. reflexivity. Qed.

Lemma append_cons (c : ascii) (s t : string) : (String c s ++ t)%string = String c (s ++ t).
Proof. reflexivity. Qed.

Lemma underscore_in_key t l :
  In "_"%char (list_ascii_of_string (t ++ "_" ++ l)).
Proof.
  induction t as [|c t IH]; repeat rewrite ?append_nil_l, ?append_cons;
    cbn [list_ascii_of_string In]; auto.
Qed.

Lemma cacheKey_inj t1 l1 t2 l2 :
  no_underscore l1 -> no_underscore l2 ->
  cacheKey t1 l1 = cacheKey t2 l2 -> t1 = t2 /\ l1 = l2.
Proof.
  unfold cacheKey. intros H1 H2. revert t2.
  induction t1 as [|c1 t1 IH]; intros [|c2 t2] H;
    repeat rewrite ?append_nil_l, ?append_cons in H.
  - injection H as ->. auto.
  - injection H as <- Hl. exfalso. apply (H1 "_"%char); [|reflexivity].
    rewrite Hl. apply underscore_in_key.
  - injection H as -> Hl. exfalso. apply (H2 "_"%char); [|reflexivity].
    rewrite <- Hl. apply underscore_in_key.
  - injection H as -> H. destruct (IH t2 H) as [-> ->]. auto.
Qed.

Lemma localStorageKey_inj k1 k2 : localStorageKey k1 = localStorageKey k2 -> k1 = k2.
Proof. unfold localStorageKey. cbn. intros H. injection H. auto. Qed.

(** C5 (as stated): a successful write for [("Hi_x", "fr")] answers the
    lookup for [("Hi", "x_fr")] from the memory tier, with no request. *)
Lemma cache_key_collision :
  match getCachedTranslation env_tag "Hi_x" "fr" (fresh ∅) with
  | (_, st1, _) =>
      match getCachedTranslation env_tag "Hi" "x_fr" st1 with
      | (r, _, evs) => r = Ok "[fr] Hi_x" /\ ~ In (EFetch "Hi" "x_fr") evs
      end
  end.
Proof. vm_compute. split; [reflexivity | intros []]. Qed.

(** C5 (amended): for two distinct pairs whose language codes have no
    underscore, a call for the first leaves the entries of the second in
    both tiers as they were: it neither creates nor overwrites them. *)
Theorem cache_keys_separate env t1 l1 t2 l2 st :
  no_underscore l1 -> no_underscore l2 -> (t1, l1) <> (t2, l2) ->
  match getCachedTranslation env t1 l1 st with
  | (_, st', _) =>
      cache st' !! cacheKey t2 l2 = cache st !! cacheKey t2 l2 /\
      store st' !! localStorageKey (cacheKey t2 l2) =
        store st !! localStorageKey (cacheKey t2 l2)
  end.
Proof.
  intros H1 H2 Hne.
  assert (Hk : cacheKey t1 l1 <> cacheKey t2 l2).
  { intros E. apply Hne. destruct (cacheKey_inj _ _ _ _ H1 H2 E) as [-> ->]. reflexivity. }
  assert (Hlk : localStorageKey (cacheKey t1 l1) <> localStorageKey (cacheKey t2 l2)).
  { intros E. apply Hk, localStorageKey_inj, E. }
  set (J := fun s => cache s !! cacheKey t2 l2 = cache st !! cacheKey t2 l2 /\
                     store s !! localStorageKey (cacheKey t2 l2) =
                       store st !! localStorageKey (cacheKey t2 l2)).
  assert (Hinv : Inv J (fun _ => True) (getCachedTranslation env t1 l1)).
  { unfold getCachedTranslation, gct_start, gct_fetch, getItem, setItem. cbv zeta.
    repeat (inv_step || (apply Inv_emit; exact Logic.I)
            || (apply Inv_modify; intros [] [Ha Hb]; unfold J; cbn in *;
                rewrite ?lookup_insert_ne by assumption; auto)). }
  specialize (Hinv st (conj eq_refl eq_refl)).
  destruct (getCachedTranslation env t1 l1 st) as [[r st'] evs]. apply Hinv.
Qed.

Lemma cache_keys_separate_witness :
  no_underscore "fr" /\ no_underscore "de" /\ ("Hi", "fr") <> ("Hi", "de") /\
  match getCachedTranslation env_tag "Hi" "fr" (fresh ∅) with
  | (_, st', _) =>
      cache st' !! cacheKey "Hi" "de" = cache (fresh ∅) !! cacheKey "Hi" "de" /\
      store st' !! localStorageKey (cacheKey "Hi" "de") =
        store (fresh ∅) !! localStorageKey (cacheKey "Hi" "de")
  end.
Proof.
  assert (Hfr : no_underscore "fr")
    by (intros c Hc; cbn in Hc; repeat destruct Hc as [<-|Hc]; try discriminate; contradiction).
  assert (Hde : no_underscore "de")
    by (intros c Hc; cbn in Hc; repeat destruct Hc as [<-|Hc]; try discriminate; contradiction).
  assert (Hne : ("Hi", "fr") <> ("Hi", "de")) by discriminate.
  split; [exact Hfr|]. split; [exact Hde|]. split; [exact Hne|].
  apply cache_keys_separate; assumption.
Defined.

(** ** The persisted tier and an empty translation *)

(** C3 (failing input): the API answers a quoted empty string; the first
    call stores [""] in both tiers; a new page (fresh memory tier, same
    persisted store) asking for the same pair requests the API again,
    because the persisted [""] is read as a miss. *)
Lemma persisted_empty_refetched :
  match getCachedTranslation env_quotes "Hi" "fr" (fresh ∅) with
  | (r1, st1, _) =>
      r1 = Ok "" /\ store st1 !! "translation_Hi_fr" = Some "" /\
      match getCachedTranslation env_quotes "Hi" "fr"
              (mkSt ∅ [] ∅ (store st1) "en" false false "en") with
      | (r2, _, evs) => r2 = Ok "" /\ In (EFetch "Hi" "fr") evs
      end
  end.
Proof. vm_compute. auto 10. Qed.

(** ** Extraction *)

(** C6 (failing input): the text of a [script] element is recorded,
    although [skipSelectors] lists [script]; the list is never read. *)
Lemma extract_records_script_text :
  match extractText page_script (fresh page_script_text) with
  | (_, st', _) => originalTexts st' = [(0, mkRec 0 "console.log(1)" "script")]
  end.
Proof. vm_compute. reflexivity. Qed.

(** ** One node of a batch *)

Ltac mcomp_opaque :=
  unfold mbind, M_bind, mret, M_ret, get, modify, emit, throw, suspend in *;
  cbn -[gct_start gct_fetch] in *.

Lemma gct_start_miss env text lang st :
  tiers_miss env st text lang ->
  gct_start env text lang st = (Ok SMiss, st, [EStoreRead (localStorageKey (cacheKey text lang))]).
Proof.
  intros (Hc & Hg & Hs). unfold gct_start, getItem, attempt. cbv zeta. mcomp.
  rewrite Hc, Hg. destruct Hs as [-> | ->]; reflexivity.
Qed.

Lemma gct_fetch_success env text lang st s :
  setItem_throws env = false ->
  remote_success (fetch_resp env text lang) = Some s ->
  gct_fetch env text lang st =
    (Ok (trim (strip_quotes s)),
     set_store <[localStorageKey (cacheKey text lang) := trim (strip_quotes s)]>
       (set_cache <[cacheKey text lang := trim (strip_quotes s)]> st),
     [EFetch text lang]).
Proof.
  intros Hset Hr. unfold gct_fetch, setItem. cbv zeta. mcomp. rewrite Hset.
  destruct (fetch_resp env text lang) as [|[] [[status tt]|]]; cbn in Hr |- *;
    try discriminate.
  destruct (not_200 status); cbn in Hr |- *; try discriminate.
  destruct tt as [| | b | z | s' | ]; cbn in Hr |- *; try discriminate.
  destruct (String.eqb s' ""); cbn in Hr |- *; try discriminate.
  injection Hr as <-. reflexivity.
Qed.

(** ** Batches *)

Lemma chunks_nil f : chunks f [] = [].
Proof. destruct f; reflexivity. Qed.

Lemma chunks_spec f l : length l <= f ->
  concat (chunks f l) = l /\
  Forall (fun b => b <> [] /\ length b <= batchSize) (chunks f l) /\
  Forall (fun b => length b = batchSize) (removelast (chunks f l)).
Proof.
  revert l. induction f as [|f IH]; intros l Hl.
  - destruct l; [|cbn in Hl; lia]. cbn. auto.
  - destruct l as [|x l']; [cbn; auto|].
    cbn [chunks]. set (l := x :: l') in *.
    destruct (IH (drop batchSize l)) as (Hc & Hn & H8).
    { rewrite length_drop. unfold batchSize. cbn in Hl |- *. lia. }
    split; [cbn [concat]; rewrite Hc; apply take_drop|].
    split.
    + constructor; [|exact Hn]. split.
      * unfold l, batchSize. cbn. discriminate.
      * rewrite length_take. lia.
    + destruct (chunks f (drop batchSize l)) as [|c cs] eqn:Ec; [constructor|].
      cbn [removelast]. constructor; [|exact H8].
      apply length_take_le. destruct (Nat.le_gt_cases batchSize (length l)); [assumption|].
      rewrite drop_ge in Ec by lia. rewrite chunks_nil in Ec. discriminate.
Qed.

Lemma bind_ext {A B} (m m' : M A) (k k' : A -> M B) st :
  (forall s, m s = m' s) -> (forall a s, k a s = k' a s) -> (m ≫= k) st = (m' ≫= k') st.
Proof.
  intros Hm Hk. unfold mbind, M_bind. rewrite Hm.
  destruct (m' st) as [[[a|] s1] e1]; [rewrite Hk|]; reflexivity.
Qed.

Lemma bind_ret_unit (m : M unit) st : (m ≫= fun _ => mret tt) st = m st.
Proof.
  unfold mbind, M_bind, mret, M_ret.
  destruct (m st) as [[[[]|] s1] e1]; rewrite ?app_nil_r; reflexivity.
Qed.

Lemma ret_bind {A B} (a : A) (k : A -> M B) st : (mret a ≫= k) st = k a st.
Proof. unfold mbind, M_bind, mret, M_ret. destruct (k a st) as [[r s2] e2]. reflexivity. Qed.

Lemma batch_loop_chunks env lang nodes fuel i st :
  length (drop i nodes) <= fuel ->
  batch_loop env lang nodes i fuel st =
    run_batches env lang (chunks fuel (drop i nodes)) st.
Proof.
  revert i st. induction fuel as [|f IH]; intros i st Hlen; [reflexivity|].
  cbn [batch_loop]. rewrite length_drop in Hlen.
  destruct (Nat.ltb_spec i (length nodes)) as [Hi|Hi].
  - destruct (drop i nodes) as [|x rest] eqn:Ed.
    { apply drop_nil_inv in Ed. lia. }
    cbn [chunks]. rewrite <- Ed, drop_drop.
    destruct (Nat.ltb_spec (i + batchSize) (length nodes)) as [Hi8|Hi8].
    + destruct (chunks f (drop (i + batchSize) nodes)) as [|c cs] eqn:Ec.
      { destruct f as [|f].
        - unfold batchSize in *. lia.
        - destruct (drop (i + batchSize) nodes) eqn:Ed8.
          + apply drop_nil_inv in Ed8. lia.
          + discriminate. }
      cbn [run_batches].
      apply bind_ext; [reflexivity|]. intros [] s.
      apply bind_ext; [reflexivity|]. intros [] s'.
      rewrite IH, Ec; [reflexivity|]. rewrite length_drop. unfold batchSize in *. lia.
    + rewrite (drop_ge nodes (i + batchSize)) by lia. rewrite chunks_nil.
      cbn [run_batches].
      transitivity ((process_batch env lang (take batchSize (drop i nodes))
                       ≫= fun _ => mret tt) st); [|apply bind_ret_unit].
      apply bind_ext; [reflexivity|]. intros [] s.
      rewrite ret_bind, IH.
      * rewrite (drop_ge nodes (i + batchSize)) by lia. rewrite chunks_nil. reflexivity.
      * rewrite length_drop. lia.
  - rewrite (drop_ge nodes i) by lia. rewrite chunks_nil. reflexivity.
Qed.

(** C7: a run to a non-base language is the batches of 8 recorded nodes,
    in order, with the 300ms pause between two batches and none after
    the last; a node's callback writes the value its translation settled
    to exactly when it is non-empty and differs from the recorded
    original. *)
Theorem translateToLanguage_batches env lang st :
  let nodes := map fst (originalTexts st) in
  translateToLanguage env lang st = run_batches env lang (batches nodes) st /\
  concat (batches nodes) = nodes /\
  Forall (fun b => b <> [] /\ length b <= batchSize) (batches nodes) /\
  Forall (fun b => length b = batchSize) (removelast (batches nodes)) /\
  (forall n data s st0 v st1 evs,
     settle env lang data s st0 = (Ok v, st1, evs) ->
     exists evs',
       finish_all env lang [PRun n data s] st0 =
         (Ok false,
          if negb (String.eqb v "") && negb (String.eqb v (original data))
          then set_dom <[n := v]> st1 else st1,
          evs')).
Proof.
  cbv zeta. set (nodes := map fst (originalTexts st)).
  destruct (chunks_spec (length nodes) nodes (le_n _)) as (Hc & Hn & H8).
  split; [|split; [exact Hc|split; [exact Hn|split; [exact H8|]]]].
  - unfold translateToLanguage, mbind, M_bind, get. cbv beta iota zeta. fold nodes.
    rewrite (batch_loop_chunks env lang nodes (length nodes) 0 st); [|rewrite length_drop; lia].
    rewrite drop_0. unfold batches.
    destruct (run_batches env lang (chunks (length nodes) nodes) st)
      as [[r s] e]. reflexivity.
  - intros n data s st0 v st1 evs Hs.
    cbn [finish_all]. unfold attempt, try_catch. mcomp.
    rewrite Hs. unfold apply_result.
    destruct (negb (String.eqb v "") && negb (String.eqb v (original data))); cbn;
      eexists; reflexivity.
Qed.

(** ** Restoring the original text *)

Lemma Inv_translatePage (I : St -> Prop) env lang :
  (forall st f, I st -> I (set_dom f st)) ->
  (forall st f, I st -> I (set_cache f st)) ->
  (forall st f, I st -> I (set_store f st)) ->
  (forall st l, I st -> I (set_currentLang l st)) ->
  (forall st l, I st -> I (set_docLang l st)) ->
  (forall st b, I st -> I (set_isTranslating b st)) ->
  (forall st b, I st -> I (set_loading b st)) ->
  Inv I (awaits (fun _ _ => True)) (translatePage env lang).
Proof.
  intros Hd Hc Hs Hl Hdl Hi Hlo. unfold translatePage, setLoading.
  repeat (inv_step || (apply Inv_modify; eauto) || (apply Inv_emit; cbn; eauto)
          || (apply (Inv_translatePage_body I (fun _ _ => True)); auto)).
Qed.

Lemma translatePage_idle_after env lang st :
  isTranslating st = false ->
  match translatePage env lang st with (_, st', _) => isTranslating st' = false end.
Proof.
  intros H. unfold translatePage. mcomp. rewrite H. cbn.
  destruct (String.eqb lang (currentLang st)); cbn; [exact H|].
  destruct (translatePage_body env lang (set_loading true (set_isTranslating true st)))
    as [[[[]|] stb] eb]; reflexivity.
Qed.

(** The page text after [restoreOriginal] over [recs]. *)
Lemma restore_notin (recs : list (nat * TextRecord)) (d : gmap nat string) n :
  ~ In n (map fst recs) ->
  foldl (fun d' (p : nat * TextRecord) => <[fst p := original (snd p)]> d') d recs !! n = d !! n.
Proof.
  revert d. induction recs as [|[m r] recs IH]; intros d Hn; [reflexivity|].
  cbn in Hn |- *. rewrite IH by tauto. apply lookup_insert_ne. intros ->. tauto.
Qed.

Lemma restore_in (recs : list (nat * TextRecord)) (d : gmap nat string) n r :
  NoDup (map fst recs) -> In (n, r) recs ->
  foldl (fun d' (p : nat * TextRecord) => <[fst p := original (snd p)]> d') d recs !! n =
    Some (original r).
Proof.
  revert d. induction recs as [|[m r'] recs IH]; intros d Hnd Hin; [destruct Hin|].
  cbn in Hnd. apply NoDup_cons in Hnd as [Hm Hnd]. cbn.
  destruct Hin as [E|Hin].
  - injection E as <- <-. rewrite restore_notin.
    + apply lookup_insert_eq.
    + intros Hin. apply Hm. apply list_elem_of_In. exact Hin.
  - apply IH; assumption.
Qed.

Lemma has_node_false recs n : has_node recs n = false -> ~ In n (map fst recs).
Proof.
  unfold has_node. intros H Hin. apply in_map_iff in Hin as [[m r] [Em Hin]].
  cbn in Em. subst m.
  assert (existsb (fun p => Nat.eqb (fst p) n) recs = true)
    by (apply existsb_exists; exists (n, r); split; [exact Hin | apply Nat.eqb_refl]).
  congruence.
Qed.

Lemma record_nodes_spec d recs nodes idx :
  NoDup (map fst recs) ->
  NoDup (map fst (record_nodes d recs nodes idx)) /\
  (forall n r, In (n, r) (record_nodes d recs nodes idx) ->
     In (n, r) recs \/ original r = trim (textContent d n)).
Proof.
  revert recs idx. induction nodes as [|[n ptag] nodes IH]; intros recs idx Hnd;
    cbn [record_nodes]; [auto|].
  destruct (negb (String.eqb (trim (textContent d n)) "") && negb (has_node recs n)) eqn:E.
  - apply andb_true_iff in E as [_ E]. apply negb_true_iff, has_node_false in E.
    destruct (IH (recs ++ [(n, mkRec idx (trim (textContent d n)) (toLowerCase ptag))])%list
                (S idx)) as [H1 H2].
    { rewrite map_app. cbn. apply NoDup_app. split; [exact Hnd|]. split.
      - intros x Hx Hx'. apply list_elem_of_singleton in Hx' as ->.
        apply E, list_elem_of_In, Hx.
      - apply NoDup_singleton. }
    split; [exact H1|]. intros m r Hin. destruct (H2 m r Hin) as [Hr|Hr]; [|auto].
    apply in_app_or in Hr as [Hr|[Hr|[]]]; [auto|].
    injection Hr as -> <-. right. reflexivity.
  - apply IH. exact Hnd.
Qed.

Lemma extractText_eq doc st :
  extractText doc st =
    (Ok tt,
     set_originalTexts (fun recs => record_nodes (dom st) recs (walk_body (dom st) doc) 0) st,
     [ELog]).
Proof. reflexivity. Qed.

Lemma translatePage_en_restores env st :
  isTranslating st = false -> currentLang st <> "en" ->
  match translatePage env "en" st with
  | (_, st', _) =>
      dom st' = foldl (fun d' (p : nat * TextRecord) => <[fst p := original (snd p)]> d')
                      (dom st) (originalTexts st)
  end.
Proof.
  intros Hb Hl.
  assert (He : String.eqb "en" (currentLang st) = false)
    by (apply String.eqb_neq; congruence).
  unfold translatePage. unfold mbind at 1, M_bind at 1, get. cbv beta iota.
  rewrite Hb, He. cbn -[translatePage_body].
  unfold translatePage_body, restoreOriginal, setItem. mcomp.
  destruct (setItem_throws env); reflexivity.
Qed.

Lemma translatePage_keeps_records env lang st :
  match translatePage env lang st with (_, st', _) => originalTexts st' = originalTexts st end.
Proof.
  pose proof (Inv_translatePage (fun s => originalTexts s = originalTexts st) env lang)
    as H.
  assert (Hi : Inv (fun s => originalTexts s = originalTexts st) (awaits (fun _ _ => True))
                 (translatePage env lang)) by (apply H; intros; assumption).
  specialize (Hi st eq_refl). destruct (translatePage env lang st) as [[r st'] e].
  apply Hi.
Qed.

(** C1 (counterexample): on [<p>  Hello world </p>] the record keeps the
    trimmed text, so translating to French and back to English leaves
    ["Hello world"] in the node, not its text at extraction. *)
Lemma restore_not_exact :
  match (extractText page_p;; translatePage env_bonjour "fr";;
         translatePage env_bonjour "en" : M unit) (fresh page_p_text) with
  | (_, st, _) =>
      originalTexts st = [(0, mkRec 0 "Hello world" "p")] /\
      dom st !! 0 = Some "Hello world" /\
      dom st !! 0 <> page_p_text !! 0
  end.
Proof. vm_compute. split; [reflexivity|]. split; [reflexivity|]. discriminate. Qed.

(** C1 (amended): starting with no records and no run in flight, extract
    the page, translate it to a language [L] other than ["en"]; if that
    run completed, translating back to ["en"] sets every recorded node to
    its record's original text, which is the node's text at extraction
    with leading and trailing whitespace removed. *)
Theorem restore_after_translate env doc L st0 :
  originalTexts st0 = [] -> isTranslating st0 = false -> L <> "en" ->
  match (extractText doc;; translatePage env L : M unit) st0 with
  | (_, st1, _) =>
      currentLang st1 = L ->
      match translatePage env "en" st1 with
      | (_, st2, _) =>
          forall n r, In (n, r) (originalTexts st2) ->
            original r = trim (textContent (dom st0) n) /\
            dom st2 !! n = Some (original r)
      end
  end.
Proof.
  intros Hr Hb HL.
  unfold mbind at 1, M_bind at 1. rewrite extractText_eq. cbv beta iota.
  set (ste := set_originalTexts _ st0).
  assert (Hre : originalTexts ste = record_nodes (dom st0) [] (walk_body (dom st0) doc) 0)
    by (unfold ste; cbn; rewrite Hr; reflexivity).
  destruct (record_nodes_spec (dom st0) [] (walk_body (dom st0) doc) 0 (NoDup_nil_2))
    as [Hnd Hspec].
  rewrite <- Hre in Hnd, Hspec.
  pose proof (translatePage_keeps_records env L ste) as K1.
  pose proof (translatePage_idle_after env L ste Hb) as I1.
  destruct (translatePage env L ste) as [[r1 st1] e1].
  cbv beta iota.
  intros HL1.
  pose proof (translatePage_keeps_records env "en" st1) as K2.
  pose proof (translatePage_en_restores env st1 I1 ltac:(congruence)) as R2.
  destruct (translatePage env "en" st1) as [[r2 st2] e2].
  intros n r Hin. rewrite K2, K1 in Hin.
  split.
  - destruct (Hspec n r Hin) as [[]|E]. exact E.
  - rewrite R2, K1. apply restore_in; assumption.
Qed.

Lemma restore_after_translate_witness :
  (originalTexts (fresh page_p_text) = [] /\ isTranslating (fresh page_p_text) = false /\
   "fr" <> "en" /\
   match (extractText page_p;; translatePage env_bonjour "fr" : M unit) (fresh page_p_text) with
   | (_, st1, _) => currentLang st1 = "fr" end) /\
  match (extractText page_p;; translatePage env_bonjour "fr" : M unit) (fresh page_p_text) with
  | (_, st1, _) =>
      currentLang st1 = "fr" ->
      match translatePage env_bonjour "en" st1 with
      | (_, st2, _) =>
          forall n r, In (n, r) (originalTexts st2) ->
            original r = trim (textContent (dom (fresh page_p_text)) n) /\
            dom st2 !! n = Some (original r)
      end
  end.
Proof.
  split.
  - split; [reflexivity|]. split; [reflexivity|]. split; [discriminate|].
    vm_compute. reflexivity.
  - apply (restore_after_translate env_bonjour page_p "fr" (fresh page_p_text));
      [reflexivity | reflexivity | discriminate].
Defined.

(* ================================================================== *)
(** * Further properties of the code *)

(** ** Extraction *)

Lemma walk_closest d : forall t p, walk d p true t = [].
Proof.
  fix IH 1. intros [n|tag nt kids] p; cbn.
  - unfold acceptNode. destruct (String.eqb _ "option"); reflexivity.
  - revert kids. fix IHk 1. intros [|k ks]; [reflexivity|].
    cbn. rewrite IH. apply IHk.
Qed.

Lemma walk_elem d p c tag nt kids :
  walk d p c (TElem tag nt kids) = flat_map (walk d tag (c || nt)) kids.
Proof. cbn. induction kids as [|k ks IH]; cbn; [reflexivity|]. rewrite IH. reflexivity. Qed.

Lemma walk_kids_closest d tag kids : flat_map (walk d tag true) kids = [].
Proof. induction kids as [|k ks IH]; cbn; [reflexivity|]. rewrite walk_closest. exact IH. Qed.

Lemma prune_elem tag kids : prune (TElem tag false kids) = [TElem tag false (flat_map prune kids)].
Proof. reflexivity. Qed.

Lemma walk_prune d : forall t p, walk d p false t = flat_map (walk d p false) (prune t).
Proof.
  fix IH 1. intros [n|tag nt kids] p.
  - cbn. rewrite app_nil_r. reflexivity.
  - destruct nt.
    + rewrite walk_elem. cbn [orb]. rewrite walk_kids_closest. reflexivity.
    + rewrite prune_elem. cbn [flat_map]. rewrite app_nil_r, !walk_elem. cbn [orb].
      revert kids. fix IHk 1. intros [|k ks]; [reflexivity|].
      cbn [flat_map]. rewrite flat_map_app, <- (IHk ks), <- (IH k). reflexivity.
Qed.

(** An element with [data-no-translate], at any depth, hides its whole
    subtree from the tree walker: the walk yields nothing inside it, and
    the walk of the body is the walk of the page with every such element
    (and the whole body, when [html] or [body] carries the attribute)
    removed. *)
Theorem walk_body_no_translate d doc :
  (forall p c tag kids, walk d p c (TElem tag true kids) = []) /\
  walk_body d doc = walk_body d (prune_doc doc).
Proof.
  split.
  - intros p c tag kids. rewrite walk_elem, orb_true_r. apply walk_kids_closest.
  - unfold walk_body, prune_doc. cbn [html_no_translate body_no_translate body_kids].
    destruct (html_no_translate doc || body_no_translate doc).
    + rewrite walk_kids_closest. reflexivity.
    + cbn [orb]. induction (body_kids doc) as [|k ks IH]; [reflexivity|].
      cbn [flat_map]. rewrite flat_map_app, <- IH, walk_prune. reflexivity.
Qed.

Lemma walk_accepted d : forall t p c n q,
  In (n, q) (walk d p c t) -> exists c', acceptNode d q c' n = true.
Proof.
  fix IH 1. intros [m|tag nt kids] p c n q Hin; cbn in Hin.
  - destruct (acceptNode d p c m) eqn:E; [|destruct Hin].
    destruct Hin as [Hin|[]]. injection Hin as -> ->. eauto.
  - revert kids Hin. fix IHk 1. intros [|k ks] Hin; [destruct Hin|].
    apply in_app_or in Hin as [Hin|Hin]; [exact (IH k _ _ _ _ Hin) | exact (IHk ks Hin)].
Qed.

Lemma record_nodes_new d recs nodes idx n r :
  In (n, r) (record_nodes d recs nodes idx) ->
  In (n, r) recs \/
  exists ptag, In (n, ptag) nodes /\ original r = trim (textContent d n) /\
               parentTag r = toLowerCase ptag.
Proof.
  revert recs idx. induction nodes as [|[m ptag] nodes IH]; intros recs idx Hin;
    cbn [record_nodes] in Hin; [auto|].
  destruct (IH _ _ Hin) as [Hr|(q & Hq & H1 & H2)].
  - destruct (_ && _); [|auto].
    apply in_app_or in Hr as [Hr|[Hr|[]]]; [auto|].
    injection Hr as -> <-. right. exists ptag. cbn. auto.
  - right. exists q. cbn. auto.
Qed.

Lemma has_node_app recs new n : has_node recs n = true -> has_node (recs ++ new) n = true.
Proof. unfold has_node. rewrite existsb_app. intros ->. reflexivity. Qed.

Lemma record_nodes_prefix d recs nodes idx :
  exists new, record_nodes d recs nodes idx = (recs ++ new)%list.
Proof.
  revert recs idx. induction nodes as [|[m ptag] nodes IH]; intros recs idx;
    cbn [record_nodes]; [exists []; symmetry; apply app_nil_r|].
  destruct (_ && _).
  - destruct (IH (recs ++ [(m, mkRec idx (trim (textContent d m)) (toLowerCase ptag))])%list
                (S idx)) as [new Hn].
    rewrite Hn, <- app_assoc. eauto.
  - apply IH.
Qed.

Lemma record_nodes_mono d recs nodes idx n :
  has_node recs n = true -> has_node (record_nodes d recs nodes idx) n = true.
Proof.
  intros H. destruct (record_nodes_prefix d recs nodes idx) as [new ->].
  apply has_node_app, H.
Qed.

Lemma record_nodes_covers d recs nodes idx n p :
  In (n, p) nodes -> trim (textContent d n) <> "" ->
  has_node (record_nodes d recs nodes idx) n = true.
Proof.
  revert recs idx. induction nodes as [|[m ptag] nodes IH]; intros recs idx Hin Hne;
    [destruct Hin|].
  destruct Hin as [E|Hin]; [|apply IH; assumption].
  injection E as -> ->. cbn [record_nodes]. apply record_nodes_mono.
  destruct (has_node recs n) eqn:Eh.
  - destruct (_ && _); [apply has_node_app|]; exact Eh.
  - apply String.eqb_neq in Hne. rewrite Hne. cbn.
    unfold has_node. rewrite existsb_app. cbn. rewrite Nat.eqb_refl, orb_true_r.
    reflexivity.
Qed.

Lemma record_nodes_stable d recs nodes idx :
  (forall n p, In (n, p) nodes -> trim (textContent d n) <> "" -> has_node recs n = true) ->
  record_nodes d recs nodes idx = recs.
Proof.
  revert idx. induction nodes as [|[m ptag] nodes IH]; intros idx H; [reflexivity|].
  cbn [record_nodes].
  destruct (String.eqb (trim (textContent d m)) "") eqn:E; cbn.
  - apply IH. intros n p Hin. apply (H n p). right. exact Hin.
  - rewrite (H m ptag (or_introl eq_refl)) by (apply String.eqb_neq; exact E). cbn.
    apply IH. intros n p Hin. apply (H n p). right. exact Hin.
Qed.

(** extraction filters *)
(** Every record that [extractText] adds holds the node's trimmed text
    at extraction, of length at least 2, not all digits, not starting
    with [http], [www.] or [@] (in any case), and its parent is not an
    [option] element. *)
Theorem extractText_filters doc st :
  match extractText doc st with
  | (_, st', _) =>
      forall n r, In (n, r) (originalTexts st') -> ~ In (n, r) (originalTexts st) ->
        original r = trim (textContent (dom st) n) /\
        2 <= String.length (original r) /\
        all_digits (original r) = false /\
        url_like (original r) = false /\
        parentTag r <> "option"
  end.
Proof.
  rewrite extractText_eq. cbn [originalTexts set_originalTexts].
  intros n r Hin Hnot.
  destruct (record_nodes_new _ _ _ _ _ _ Hin) as [Hr|(ptag & Hp & Ho & Ht)];
    [contradiction|].
  unfold walk_body in Hp. apply in_flat_map in Hp as (t & _ & Hp).
  destruct (walk_accepted _ _ _ _ _ _ Hp) as [c Hacc].
  rewrite Ho, Ht. unfold acceptNode in Hacc.
  destruct (String.eqb (toLowerCase ptag) "option") eqn:Eo; [discriminate|].
  destruct c; [discriminate|].
  destruct (String.eqb (trim (textContent (dom st) n)) "" ||
            Nat.ltb (String.length (trim (textContent (dom st) n))) 2) eqn:El;
    [discriminate|].
  apply orb_false_iff in El as [_ El]. apply Nat.ltb_ge in El.
  destruct (all_digits _); [discriminate|].
  destruct (url_like _); [discriminate|].
  repeat split; try reflexivity; try exact El.
  apply String.eqb_neq, Eo.
Qed.

(** [extractText] only appends records: the old ones stay as they are
    and in order, the nodes stay distinct, and nothing else of the state
    changes. *)
Theorem extractText_extends doc st :
  NoDup (map fst (originalTexts st)) ->
  match extractText doc st with
  | (r, st', evs) =>
      r = Ok tt /\ evs = [ELog] /\
      (exists new, originalTexts st' = (originalTexts st ++ new)%list /\
                   st' = set_originalTexts (fun _ => originalTexts st ++ new)%list st) /\
      NoDup (map fst (originalTexts st'))
  end.
Proof.
  intros Hnd. rewrite extractText_eq. cbn [originalTexts set_originalTexts].
  destruct (record_nodes_spec (dom st) (originalTexts st) (walk_body (dom st) doc) 0 Hnd)
    as [Hnd' _].
  destruct (record_nodes_prefix (dom st) (originalTexts st) (walk_body (dom st) doc) 0)
    as [new Hn].
  split; [reflexivity|]. split; [reflexivity|]. split; [|exact Hnd'].
  exists new. split; [exact Hn|]. unfold set_originalTexts. rewrite Hn. reflexivity.
Qed.

Lemma extractText_extends_witness :
  NoDup (map fst (originalTexts (fresh page_p_text))) /\
  match extractText page_p (fresh page_p_text) with
  | (r, st', evs) =>
      r = Ok tt /\ evs = [ELog] /\
      (exists new, originalTexts st' = (originalTexts (fresh page_p_text) ++ new)%list /\
                   st' = set_originalTexts (fun _ => originalTexts (fresh page_p_text) ++ new)%list
                           (fresh page_p_text)) /\
      NoDup (map fst (originalTexts st'))
  end.
Proof. split; [constructor|]. apply extractText_extends. constructor. Defined.


(** On an unchanged page a second [extractText] records nothing: the
    state is that of one call, with one more log line. *)
Theorem extractText_idempotent doc st :
  (extractText doc;; extractText doc : M unit) st =
  match extractText doc st with (r, st', evs) => (r, st', evs ++ [ELog])%list end.
Proof.
  unfold mbind at 1, M_bind at 1. rewrite !extractText_eq. cbv beta iota.
  f_equal. f_equal. unfold set_originalTexts. cbn [dom originalTexts]. f_equal.
  apply record_nodes_stable. intros n p Hin Hne.
  apply (record_nodes_covers _ _ _ _ n p Hin Hne).
Qed.

(** ** The cache tiers *)

(** A hit in the memory tier returns the cached value at once: no read
    of [localStorage], no request, no change of state. *)
Theorem getCachedTranslation_memory_hit env text lang st v :
  cache st !! cacheKey text lang = Some v ->
  getCachedTranslation env text lang st = (Ok v, st, []).
Proof. intros H. gct_unfold. rewrite H. reflexivity. Qed.

Lemma getCachedTranslation_memory_hit_witness :
  cache (set_cache <[cacheKey "Hi" "fr" := "Salut"]> (fresh ∅)) !! cacheKey "Hi" "fr" =
    Some "Salut" /\
  getCachedTranslation env_down "Hi" "fr" (set_cache <[cacheKey "Hi" "fr" := "Salut"]> (fresh ∅)) =
    (Ok "Salut", set_cache <[cacheKey "Hi" "fr" := "Salut"]> (fresh ∅), []).
Proof.
  assert (H : cache (set_cache <[cacheKey "Hi" "fr" := "Salut"]> (fresh ∅)) !! cacheKey "Hi" "fr" =
                Some "Salut") by (cbn [cache set_cache]; apply lookup_insert_eq).
  split; [exact H | apply getCachedTranslation_memory_hit; exact H].
Defined.


(** A non-empty value in [localStorage] (and none in memory) is copied
    into the memory tier and returned, after one read and no request. *)
Theorem getCachedTranslation_persisted_hit env text lang st v :
  cache st !! cacheKey text lang = None ->
  getItem_throws env = false ->
  store st !! localStorageKey (cacheKey text lang) = Some v -> v <> "" ->
  getCachedTranslation env text lang st =
    (Ok v, set_cache <[cacheKey text lang := v]> st,
     [EStoreRead (localStorageKey (cacheKey text lang))]).
Proof.
  intros Hc Hg Hs Hv. gct_unfold. rewrite Hc, Hg. cbn. rewrite Hs.
  apply String.eqb_neq in Hv. rewrite Hv. reflexivity.
Qed.

Lemma getCachedTranslation_persisted_hit_witness :
  let st := set_store <[localStorageKey (cacheKey "Hi" "fr") := "Salut"]> (fresh ∅) in
  cache st !! cacheKey "Hi" "fr" = None /\ getItem_throws env_down = false /\
  store st !! localStorageKey (cacheKey "Hi" "fr") = Some "Salut" /\ "Salut" <> "" /\
  getCachedTranslation env_down "Hi" "fr" st =
    (Ok "Salut", set_cache <[cacheKey "Hi" "fr" := "Salut"]> st,
     [EStoreRead (localStorageKey (cacheKey "Hi" "fr"))]).
Proof.
  intros st.
  assert (H1 : cache st !! cacheKey "Hi" "fr" = None) by apply lookup_empty.
  assert (H3 : store st !! localStorageKey (cacheKey "Hi" "fr") = Some "Salut")
    by apply lookup_insert_eq.
  assert (H4 : "Salut" <> "") by discriminate.
  split; [exact H1|]. split; [reflexivity|]. split; [exact H3|]. split; [exact H4|].
  apply getCachedTranslation_persisted_hit; [exact H1 | reflexivity | exact H3 | exact H4].
Defined.


(** When the memory tier misses and [localStorage.getItem] throws, the
    exception escapes the call (it is outside the [try]): no request, no
    warning, no change of state. *)
Theorem getCachedTranslation_read_throws env text lang st :
  cache st !! cacheKey text lang = None ->
  getItem_throws env = true ->
  getCachedTranslation env text lang st =
    (Exn, st, [EStoreRead (localStorageKey (cacheKey text lang))]).
Proof. intros Hc Hg. gct_unfold. rewrite Hc, Hg. reflexivity. Qed.

Lemma getCachedTranslation_read_throws_witness :
  cache (fresh ∅) !! cacheKey "Hi" "fr" = None /\ getItem_throws env_no_storage = true /\
  getCachedTranslation env_no_storage "Hi" "fr" (fresh ∅) =
    (Exn, fresh ∅, [EStoreRead (localStorageKey (cacheKey "Hi" "fr"))]).
Proof.
  assert (H1 : cache (fresh ∅) !! cacheKey "Hi" "fr" = None) by apply lookup_empty.
  split; [exact H1|]. split; [reflexivity|].
  apply getCachedTranslation_read_throws; [exact H1 | reflexivity].
Defined.


(** After a successful request, the same call on the same page is
    answered from memory with no event; on a new page (new translator,
    same storage) it is answered from [localStorage] when the value is
    not empty. *)
Theorem getCachedTranslation_memoized env text lang st s :
  tiers_miss env st text lang ->
  setItem_throws env = false ->
  remote_success (fetch_resp env text lang) = Some s ->
  match getCachedTranslation env text lang st with
  | (r1, st1, _) =>
      r1 = Ok (trim (strip_quotes s)) /\
      getCachedTranslation env text lang st1 = (r1, st1, []) /\
      (trim (strip_quotes s) <> "" ->
       getCachedTranslation env text lang (Translator_new st1) =
         (r1, set_cache <[cacheKey text lang := trim (strip_quotes s)]> (Translator_new st1),
          [EStoreRead (localStorageKey (cacheKey text lang))]))
  end.
Proof.
  intros Hm Hset Hr. pose proof Hm as (_ & Hg & _).
  unfold getCachedTranslation at 1. unfold mbind at 1, M_bind at 1.
  rewrite (gct_start_miss _ _ _ _ Hm). cbv beta iota.
  rewrite (gct_fetch_success _ _ _ _ _ Hset Hr). cbv beta iota.
  split; [reflexivity|]. split.
  - gct_unfold. rewrite lookup_insert_eq. reflexivity.
  - intros Hne. gct_unfold. rewrite lookup_empty, Hg. cbn. rewrite lookup_insert_eq.
    apply String.eqb_neq in Hne. rewrite Hne. reflexivity.
Qed.

Definition bonjour_quoted : string := String dquote ("Bonjour le monde" ++ String dquote "").

Lemma getCachedTranslation_memoized_witness :
  tiers_miss env_bonjour (fresh ∅) "Hello world" "fr" /\
  setItem_throws env_bonjour = false /\
  remote_success (fetch_resp env_bonjour "Hello world" "fr") = Some bonjour_quoted /\
  match getCachedTranslation env_bonjour "Hello world" "fr" (fresh ∅) with
  | (r1, st1, _) =>
      r1 = Ok (trim (strip_quotes bonjour_quoted)) /\
      getCachedTranslation env_bonjour "Hello world" "fr" st1 = (r1, st1, []) /\
      (trim (strip_quotes bonjour_quoted) <> "" ->
       getCachedTranslation env_bonjour "Hello world" "fr" (Translator_new st1) =
         (r1, set_cache <[cacheKey "Hello world" "fr" := trim (strip_quotes bonjour_quoted)]>
                (Translator_new st1),
          [EStoreRead (localStorageKey (cacheKey "Hello world" "fr"))]))
  end.
Proof.
  assert (H : tiers_miss env_bonjour (fresh ∅) "Hello world" "fr")
    by (split; [reflexivity | split; [reflexivity | left; reflexivity]]).
  split; [exact H|]. split; [reflexivity|]. split; [reflexivity|].
  apply getCachedTranslation_memoized; [exact H | reflexivity | reflexivity].
Defined.


(** When [localStorage.setItem] throws after a successful request, the
    call returns the untranslated text with a warning, but the memory
    tier already holds the translation, which a later call returns. *)
Theorem getCachedTranslation_persist_fails env text lang st s :
  tiers_miss env st text lang ->
  setItem_throws env = true ->
  remote_success (fetch_resp env text lang) = Some s ->
  match getCachedTranslation env text lang st with
  | (r1, st1, evs) =>
      r1 = Ok text /\
      st1 = set_cache <[cacheKey text lang := trim (strip_quotes s)]> st /\
      In EWarn evs /\
      getCachedTranslation env text lang st1 = (Ok (trim (strip_quotes s)), st1, [])
  end.
Proof.
  intros Hm Hset Hr. pose proof Hm as (Hc & Hg & _).
  unfold getCachedTranslation at 1. unfold mbind at 1, M_bind at 1.
  rewrite (gct_start_miss _ _ _ _ Hm). cbv beta iota.
  unfold gct_fetch, setItem. cbv zeta. mcomp. rewrite Hset.
  destruct (fetch_resp env text lang) as [|[] [[status tt]|]]; cbn in Hr |- *;
    try discriminate.
  destruct (not_200 status); cbn in Hr |- *; try discriminate.
  destruct tt as [| | b | z | s' | ]; cbn in Hr |- *; try discriminate.
  destruct (String.eqb s' ""); cbn in Hr |- *; try discriminate.
  injection Hr as <-.
  split; [reflexivity|]. split; [reflexivity|]. split; [cbn; auto 10|].
  gct_unfold. rewrite lookup_insert_eq. reflexivity.
Qed.

Lemma getCachedTranslation_persist_fails_witness :
  tiers_miss env_quota (fresh ∅) "Hello world" "fr" /\
  setItem_throws env_quota = true /\
  remote_success (fetch_resp env_quota "Hello world" "fr") = Some "Bonjour" /\
  match getCachedTranslation env_quota "Hello world" "fr" (fresh ∅) with
  | (r1, st1, evs) =>
      r1 = Ok "Hello world" /\
      st1 = set_cache <[cacheKey "Hello world" "fr" := trim (strip_quotes "Bonjour")]> (fresh ∅) /\
      In EWarn evs /\
      getCachedTranslation env_quota "Hello world" "fr" st1 =
        (Ok (trim (strip_quotes "Bonjour")), st1, [])
  end.
Proof.
  assert (H : tiers_miss env_quota (fresh ∅) "Hello world" "fr")
    by (split; [reflexivity | split; [reflexivity | left; reflexivity]]).
  split; [exact H|]. split; [reflexivity|]. split; [reflexivity|].
  apply getCachedTranslation_persist_fails; [exact H | reflexivity | reflexivity].
Defined.


(** ** Restoring and switching back *)

(** The text of the page after [restoreOriginal] over [recs]. *)
Definition restore_fold (d : gmap nat string) (recs : list (nat * TextRecord)) :=
  foldl (fun d' (p : nat * TextRecord) => <[fst p := original (snd p)]> d') d recs.

Lemma restore_fold_idem (recs : list (nat * TextRecord)) d :
  NoDup (map fst recs) -> restore_fold (restore_fold d recs) recs = restore_fold d recs.
Proof.
  intros Hnd. apply map_eq. intros n. unfold restore_fold.
  destruct (in_dec Nat.eq_dec n (map fst recs)) as [Hin|Hin].
  - apply in_map_iff in Hin as [[m r] [Em Hin]]. cbn in Em. subst m.
    rewrite !(restore_in _ _ _ _ Hnd Hin). reflexivity.
  - rewrite !restore_notin by exact Hin. reflexivity.
Qed.

(** [restoreOriginal] sets every recorded node to its record's original
    text, leaves every other node and the rest of the state as they were,
    emits nothing, and a second call changes nothing. *)
Theorem restoreOriginal_spec st :
  NoDup (map fst (originalTexts st)) ->
  match restoreOriginal st with
  | (r, st', evs) =>
      r = Ok tt /\ evs = [] /\
      (forall n rec, In (n, rec) (originalTexts st) -> dom st' !! n = Some (original rec)) /\
      (forall n, ~ In n (map fst (originalTexts st)) -> dom st' !! n = dom st !! n) /\
      (exists f, st' = set_dom f st) /\
      restoreOriginal st' = (Ok tt, st', [])
  end.
Proof.
  intros Hnd. unfold restoreOriginal. mcomp.
  split; [reflexivity|]. split; [reflexivity|].
  split; [intros n rec Hin; apply restore_in; assumption|].
  split; [intros n Hn; apply restore_notin; assumption|].
  split; [eexists; reflexivity|].
  f_equal. f_equal. unfold set_dom. cbn. f_equal.
  apply (restore_fold_idem (originalTexts st) (dom st) Hnd).
Qed.

Lemma restoreOriginal_spec_witness :
  NoDup (map fst (originalTexts st_bonjour)) /\
  match restoreOriginal st_bonjour with
  | (r, st', evs) =>
      r = Ok tt /\ evs = [] /\
      (forall n rec, In (n, rec) (originalTexts st_bonjour) ->
         dom st' !! n = Some (original rec)) /\
      (forall n, ~ In n (map fst (originalTexts st_bonjour)) -> dom st' !! n = dom st_bonjour !! n) /\
      (exists f, st' = set_dom f st_bonjour) /\
      restoreOriginal st' = (Ok tt, st', [])
  end.
Proof.
  assert (H : NoDup (map fst (originalTexts st_bonjour))) by apply NoDup_singleton.
  split; [exact H | apply restoreOriginal_spec; exact H].
Defined.


(** Switching back to ["en"] never requests the API nor reads the
    storage: it restores the records, sets the language fields, stores
    ["site_language"] (or, when [setItem] throws, logs the error and
    leaves the store as it was), and leaves both tiers and the records
    unchanged. *)
Theorem translatePage_to_en env st :
  isTranslating st = false -> currentLang st <> "en" ->
  match translatePage env "en" st with
  | (r, st', evs) =>
      r = Ok tt /\
      (forall e, In e evs -> match e with EFetch _ _ | EStoreRead _ => False | _ => True end) /\
      cache st' = cache st /\ originalTexts st' = originalTexts st /\
      currentLang st' = "en" /\ docLang st' = "en" /\
      store st' = (if setItem_throws env then store st
                   else <["site_language" := "en"]> (store st)) /\
      dom st' = restore_fold (dom st) (originalTexts st) /\
      isTranslating st' = false /\ loading st' = false
  end.
Proof.
  intros Hb Hl.
  assert (He : String.eqb "en" (currentLang st) = false)
    by (apply String.eqb_neq; congruence).
  unfold translatePage. unfold mbind at 1, M_bind at 1, get. cbv beta iota.
  rewrite Hb, He. cbn -[translatePage_body].
  unfold translatePage_body, restoreOriginal, setItem, suspend. mcomp.
  destruct (setItem_throws env); cbn.
  all: repeat split; try reflexivity.
  all: intros e Hin; repeat destruct Hin as [<-|Hin]; try exact I; destruct Hin.
Qed.

Lemma translatePage_to_en_witness :
  isTranslating st_bonjour = false /\ currentLang st_bonjour <> "en" /\
  match translatePage env_bonjour "en" st_bonjour with
  | (r, st', evs) =>
      r = Ok tt /\
      (forall e, In e evs -> match e with EFetch _ _ | EStoreRead _ => False | _ => True end) /\
      cache st' = cache st_bonjour /\ originalTexts st' = originalTexts st_bonjour /\
      currentLang st' = "en" /\ docLang st' = "en" /\
      store st' = (if setItem_throws env_bonjour then store st_bonjour
                   else <["site_language" := "en"]> (store st_bonjour)) /\
      dom st' = restore_fold (dom st_bonjour) (originalTexts st_bonjour) /\
      isTranslating st' = false /\ loading st' = false
  end.
Proof.
  assert (H : currentLang st_bonjour <> "en") by discriminate.
  split; [reflexivity|]. split; [exact H|].
  apply translatePage_to_en; [reflexivity | exact H].
Defined.


(** When [localStorage.setItem] throws, nothing of a run writes the
    storage: the frame of the run without the persisted tier. *)
Section NoPersist.
Context (I : St -> Prop) (Q : bool -> bool -> Prop) (env : Env).
Hypothesis I_dom : forall st f, I st -> I (set_dom f st).
Hypothesis I_cache : forall st f, I st -> I (set_cache f st).
Hypothesis I_await : forall st, I st -> Q (isTranslating st) (loading st).
Hypothesis set_throws : setItem_throws env = true.

Local Hint Resolve I_dom I_cache : inv.

Ltac inv_auto_np :=
  repeat (solve [eauto with inv] || inv_step || (apply Inv_modify; eauto with inv) ||
          (apply Inv_emit; cbn; eauto with inv)).

Lemma Inv_np_setItem key v : Inv I (awaits Q) (setItem env key v).
Proof. unfold setItem. rewrite set_throws. apply Inv_throw. Qed.

Lemma Inv_np_suspend : Inv I (awaits Q) suspend.
Proof. unfold suspend. inv_auto_np. Qed.

Lemma Inv_np_getItem key : Inv I (awaits Q) (getItem env key).
Proof. unfold getItem. inv_auto_np. Qed.

Local Hint Resolve Inv_np_setItem Inv_np_suspend Inv_np_getItem : inv.

Lemma Inv_np_gct_start text lang : Inv I (awaits Q) (gct_start env text lang).
Proof. unfold gct_start. cbv zeta. inv_auto_np. Qed.

Lemma Inv_np_gct_fetch text lang : Inv I (awaits Q) (gct_fetch env text lang).
Proof. unfold gct_fetch. cbv zeta. inv_auto_np. Qed.

Local Hint Resolve Inv_np_gct_start Inv_np_gct_fetch : inv.

Lemma Inv_np_settle lang data s : Inv I (awaits Q) (settle env lang data s).
Proof. unfold settle. inv_auto_np. Qed.

Lemma Inv_np_apply_result n data v : Inv I (awaits Q) (apply_result n data v).
Proof. unfold apply_result. inv_auto_np. Qed.

Local Hint Resolve Inv_np_settle Inv_np_apply_result : inv.

Lemma Inv_np_start_all lang batch : Inv I (awaits Q) (start_all env lang batch).
Proof. induction batch; cbn [start_all]; inv_auto_np. Qed.

Lemma Inv_np_finish_all lang ps : Inv I (awaits Q) (finish_all env lang ps).
Proof. induction ps as [|[] ps IH]; cbn [finish_all]; inv_auto_np. Qed.

Local Hint Resolve Inv_np_start_all Inv_np_finish_all : inv.

Lemma Inv_np_process_batch lang batch : Inv I (awaits Q) (process_batch env lang batch).
Proof. unfold process_batch. inv_auto_np. Qed.

Lemma Inv_np_pause ms : Inv I (awaits Q) (pause ms).
Proof. unfold pause. inv_auto_np. Qed.

Local Hint Resolve Inv_np_process_batch Inv_np_pause : inv.

Lemma Inv_np_batch_loop lang nodes i fuel :
  Inv I (awaits Q) (batch_loop env lang nodes i fuel).
Proof. revert i. induction fuel; intros i; cbn [batch_loop]; inv_auto_np. Qed.

Lemma Inv_np_translateToLanguage lang : Inv I (awaits Q) (translateToLanguage env lang).
Proof. unfold translateToLanguage. inv_auto_np. apply Inv_np_batch_loop. Qed.
End NoPersist.

(** When [localStorage.setItem] throws, a run to any language leaves the
    storage as it was and logs an error: the write of ["site_language"]
    at its end throws.  When the run gets there (always for ["en"]; for
    another language when [translateToLanguage] completes), the language
    fields are already set, so a new call for that language does
    nothing and the choice is never stored. *)
Theorem translatePage_persist_fails env lang st :
  isTranslating st = false -> lang <> currentLang st -> setItem_throws env = true ->
  match translatePage env lang st with
  | (r, st', evs) =>
      r = Ok tt /\ In EError evs /\ store st' = store st /\ isTranslating st' = false /\
      ((lang = "en" \/
        exists stt evt, translateToLanguage env lang
                          (set_loading true (set_isTranslating true st)) = (Ok tt, stt, evt)) ->
       currentLang st' = lang /\ docLang st' = lang /\
       translatePage env lang st' = (Ok tt, st', []))
  end.
Proof.
  intros Hb Hl Hset.
  assert (He : String.eqb lang (currentLang st) = false) by (apply String.eqb_neq; exact Hl).
  unfold translatePage at 1. unfold mbind at 1, M_bind at 1, get. cbv beta iota.
  rewrite Hb, He. cbn -[translatePage_body].
  unfold translatePage_body.
  unfold mbind, M_bind, mret, M_ret, modify, emit, throw, setLoading, try_finally,
    try_catch, setItem, suspend, get.
  rewrite Hset.
  destruct (String.eqb_spec lang "en") as [->|Hen].
  - unfold restoreOriginal, mbind, M_bind, get, modify, mret, M_ret, emit. cbn.
    split; [reflexivity|]. split; [auto 10|]. split; [reflexivity|]. split; [reflexivity|].
    intros _. split; [reflexivity|]. split; [reflexivity|].
    unfold translatePage, mbind, M_bind, get, mret, M_ret. cbn. reflexivity.
  - pose proof (Inv_np_translateToLanguage (fun s => store s = store st)
                  (fun _ _ => True) env ltac:(intros [] f H; exact H)
                  ltac:(intros [] f H; exact H) ltac:(intros; exact I) Hset lang
                  (set_loading true (set_isTranslating true st)) eq_refl) as Hinv.
    cbn -[translateToLanguage].
    destruct (translateToLanguage env lang (set_loading true (set_isTranslating true st)))
      as [[[[]|] stt] evt] eqn:Et; destruct Hinv as [Hs _];
      unfold mbind, M_bind, get, emit, mret, M_ret; cbn.
    + split; [reflexivity|]. split; [rewrite ?in_app_iff; cbn [In]; auto 10|].
      split; [exact Hs|]. split; [reflexivity|].
      intros _. split; [reflexivity|]. split; [reflexivity|].
      unfold translatePage, mbind, M_bind, get, mret, M_ret. cbn.
      rewrite String.eqb_refl, ?orb_true_r. reflexivity.
    + split; [reflexivity|]. split; [rewrite ?in_app_iff; cbn [In]; auto 10|].
      split; [exact Hs|]. split; [reflexivity|].
      intros [E | (stt' & evt' & E)]; [contradiction | congruence].
Qed.

Lemma translatePage_persist_fails_witness :
  isTranslating st_hello = false /\ "fr" <> currentLang st_hello /\
  setItem_throws env_quota = true /\
  match translatePage env_quota "fr" st_hello with
  | (r, st', evs) =>
      r = Ok tt /\ In EError evs /\ store st' = store st_hello /\ isTranslating st' = false /\
      (("fr" = "en" \/
        exists stt evt, translateToLanguage env_quota "fr"
                          (set_loading true (set_isTranslating true st_hello)) = (Ok tt, stt, evt)) ->
       currentLang st' = "fr" /\ docLang st' = "fr" /\
       translatePage env_quota "fr" st' = (Ok tt, st', []))
  end.
Proof.
  assert (H : "fr" <> currentLang st_hello) by discriminate.
  split; [reflexivity|]. split; [exact H|]. split; [reflexivity|].
  apply translatePage_persist_fails; [reflexivity | exact H | reflexivity].
Defined.


(** A language change before the page is extracted (no record yet)
    completes with no request and no change of text, yet sets the
    language fields and stores the choice (when [setItem] throws, the
    error is logged and the store is left as it was); asking for that
    language again is then a no-op. *)
Theorem translatePage_before_extraction env lang st :
  originalTexts st = [] -> isTranslating st = false ->
  lang <> currentLang st -> lang <> "en" ->
  match translatePage env lang st with
  | (r, st', evs) =>
      r = Ok tt /\
      evs = [EAwait true true; if setItem_throws env then EError else ELog] /\
      dom st' = dom st /\ currentLang st' = lang /\ docLang st' = lang /\
      store st' = (if setItem_throws env then store st
                   else <["site_language" := lang]> (store st)) /\
      translatePage env lang st' = (Ok tt, st', [])
  end.
Proof.
  intros Hr Hb Hl Hen.
  assert (He : String.eqb lang (currentLang st) = false) by (apply String.eqb_neq; exact Hl).
  assert (He' : String.eqb lang "en" = false) by (apply String.eqb_neq; exact Hen).
  unfold translatePage. unfold mbind at 1, M_bind at 1, get. cbv beta iota.
  rewrite Hb, He. mcomp.
  unfold translatePage_body. rewrite He'.
  unfold translateToLanguage, setItem, suspend. mcomp. rewrite Hr.
  destruct (setItem_throws env); cbn.
  all: repeat split; try reflexivity.
  all: rewrite String.eqb_refl; reflexivity.
Qed.

Lemma translatePage_before_extraction_witness :
  originalTexts (fresh page_p_text) = [] /\ isTranslating (fresh page_p_text) = false /\
  "fr" <> currentLang (fresh page_p_text) /\ "fr" <> "en" /\
  match translatePage env_bonjour "fr" (fresh page_p_text) with
  | (r, st', evs) =>
      r = Ok tt /\
      evs = [EAwait true true; if setItem_throws env_bonjour then EError else ELog] /\
      dom st' = dom (fresh page_p_text) /\ currentLang st' = "fr" /\ docLang st' = "fr" /\
      store st' = (if setItem_throws env_bonjour then store (fresh page_p_text)
                   else <["site_language" := "fr"]> (store (fresh page_p_text))) /\
      translatePage env_bonjour "fr" st' = (Ok tt, st', [])
  end.
Proof.
  assert (H1 : "fr" <> currentLang (fresh page_p_text)) by discriminate.
  assert (H2 : "fr" <> "en") by discriminate.
  split; [reflexivity|]. split; [reflexivity|]. split; [exact H1|]. split; [exact H2|].
  apply translatePage_before_extraction; [reflexivity | reflexivity | exact H1 | exact H2].
Defined.

(** ** Unreadable storage *)

Lemma lookup_node_In recs n r : lookup_node recs n = Some r -> In (n, r) recs.
Proof.
  induction recs as [|[m r'] recs IH]; cbn; [discriminate|].
  destruct (Nat.eqb_spec m n) as [->|_]; [intros [= <-]; left; reflexivity|].
  intros H. right. auto.
Qed.

(** A callback that rejects after its synchronous part. *)
Definition stuck (p : pending) : Prop := p = PReject \/ exists n d, p = PRun n d SThrow.

Lemma gct_start_throw env text lang st :
  cache st !! cacheKey text lang = None -> getItem_throws env = true ->
  gct_start env text lang st =
    (Ok SThrow, st, [EStoreRead (localStorageKey (cacheKey text lang))]).
Proof.
  intros Hc Hg. unfold gct_start, getItem, attempt. cbv zeta. mcomp. rewrite Hc, Hg.
  reflexivity.
Qed.

Lemma start_all_unreadable env lang b st :
  getItem_throws env = true ->
  (forall n r, In (n, r) (originalTexts st) -> cache st !! cacheKey (original r) lang = None) ->
  exists ps evs, start_all env lang b st = (Ok ps, st, evs) /\ length ps = length b /\
    Forall stuck ps /\ (forall t l, ~ In (EFetch t l) evs).
Proof.
  intros Hg Hc. induction b as [|n b IH].
  - exists [], []. split; [reflexivity|]. split; [reflexivity|].
    split; [constructor|]. intros t l [].
  - destruct IH as (ps & evs & E & Hl & Hs & Hf).
    cbn [start_all]. unfold mbind at 1 2, M_bind at 1 2, get. cbv beta iota.
    destruct (lookup_node (originalTexts st) n) as [data|] eqn:El.
    + pose proof (Hc _ _ (lookup_node_In _ _ _ El)) as Hd.
      unfold mbind at 1, M_bind at 1.
      rewrite (gct_start_throw _ _ _ _ Hd Hg). cbn -[start_all].
      unfold mbind, M_bind. rewrite E. cbn.
      eexists _, _. split; [reflexivity|]. split; [cbn; f_equal; exact Hl|].
      split; [constructor; [right; eauto | exact Hs]|].
      intros t l [H|H]; [discriminate|]. apply in_app_or in H as [H|[]]. exact (Hf t l H).
    + unfold mbind, M_bind, mret, M_ret. rewrite E. cbn.
      eexists _, _. split; [reflexivity|]. split; [cbn; f_equal; exact Hl|].
      split; [constructor; [left; reflexivity | exact Hs]|].
      intros t l H. apply in_app_or in H as [H|[]]. exact (Hf t l H).
Qed.

Lemma finish_all_stuck env lang ps st :
  Forall stuck ps ->
  finish_all env lang ps st = (Ok (bool_decide (ps <> [])), st, []).
Proof.
  induction ps as [|p ps IH]; intros Hs; [reflexivity|].
  inversion Hs as [|? ? Hp Hs']; subst.
  destruct Hp as [->|(n & d & ->)].
  - cbn [finish_all]. unfold mbind, M_bind, mret, M_ret. rewrite (IH Hs'). reflexivity.
  - cbn [finish_all]. unfold attempt, try_catch, settle, mbind, M_bind, mret, M_ret, throw.
    cbn -[finish_all]. rewrite (IH Hs'), orb_true_r. reflexivity.
Qed.

Lemma process_batch_unreadable env lang b st :
  getItem_throws env = true ->
  (forall n r, In (n, r) (originalTexts st) -> cache st !! cacheKey (original r) lang = None) ->
  b <> [] ->
  exists evs, process_batch env lang b st = (Exn, st, evs) /\ (forall t l, ~ In (EFetch t l) evs).
Proof.
  intros Hg Hc Hb. destruct (start_all_unreadable env lang b st Hg Hc) as (ps & evs & E & Hl & Hs & Hf).
  unfold process_batch, mbind at 1, M_bind at 1. rewrite E.
  unfold suspend, mbind, M_bind, get, emit, throw, mret, M_ret.
  rewrite (finish_all_stuck _ _ _ _ Hs).
  assert (Hp : ps <> []) by (intros ->; destruct b; [contradiction | discriminate]).
  rewrite (bool_decide_eq_true_2 _ Hp). cbn.
  eexists. split; [reflexivity|].
  intros t l H. rewrite ?app_nil_r in H. apply in_app_or in H as [H|[H|[]]];
    [exact (Hf t l H) | discriminate].
Qed.

(** When [localStorage.getItem] throws and no recorded text is in the
    memory tier, a run to another language fails in its first batch: the
    error is logged, no request is made, and the text, both tiers and the
    language fields are as before. *)
Theorem translatePage_storage_unreadable env lang st :
  isTranslating st = false -> lang <> currentLang st -> lang <> "en" ->
  getItem_throws env = true -> originalTexts st <> [] ->
  (forall n r, In (n, r) (originalTexts st) -> cache st !! cacheKey (original r) lang = None) ->
  match translatePage env lang st with
  | (r, st', evs) =>
      r = Ok tt /\ In EError evs /\ (forall t l, ~ In (EFetch t l) evs) /\
      dom st' = dom st /\ cache st' = cache st /\ store st' = store st /\
      currentLang st' = currentLang st /\ docLang st' = docLang st /\
      isTranslating st' = false
  end.
Proof.
  intros Hb Hl Hen Hg Hne Hc.
  assert (He : String.eqb lang (currentLang st) = false) by (apply String.eqb_neq; exact Hl).
  assert (He' : String.eqb lang "en" = false) by (apply String.eqb_neq; exact Hen).
  set (stb := set_loading true (set_isTranslating true st)).
  destruct (originalTexts st) as [|p ps] eqn:Eo; [contradiction|].
  assert (Hn : map fst (originalTexts stb) = fst p :: map fst ps)
    by (unfold stb; cbn; rewrite Eo; reflexivity).
  assert (Hc' : forall n r, In (n, r) (originalTexts stb) ->
                  cache stb !! cacheKey (original r) lang = None)
    by (unfold stb; cbn; rewrite Eo; exact Hc).
  destruct (process_batch_unreadable env lang (take batchSize (fst p :: map fst ps))
              stb Hg Hc' ltac:(discriminate)) as (evs & Ep & Hf).
  assert (Ht : translateToLanguage env lang stb = (Exn, stb, evs)).
  { unfold translateToLanguage, mbind at 1, M_bind at 1, get. cbv beta iota zeta.
    rewrite Hn. cbn [length batch_loop drop].
    assert (H0 : Nat.ltb 0 (S (length (map fst ps))) = true) by reflexivity. rewrite H0.
    unfold mbind at 1, M_bind at 1. rewrite Ep. reflexivity. }
  unfold translatePage. unfold mbind at 1, M_bind at 1, get. cbv beta iota.
  rewrite Hb, He. mcomp.
  unfold translatePage_body. rewrite He'. fold stb.
  unfold mbind, M_bind. rewrite Ht. cbn.
  rewrite !app_nil_r. split; [reflexivity|]. split; [apply in_or_app; right; left; reflexivity|].
  split; [|repeat split; reflexivity].
  intros t l H. apply in_app_or in H as [H|[H|[]]];
    [exact (Hf t l H) | discriminate].
Qed.

Lemma translatePage_storage_unreadable_witness :
  isTranslating st_hello = false /\ "fr" <> currentLang st_hello /\ "fr" <> "en" /\
  getItem_throws env_no_storage = true /\ originalTexts st_hello <> [] /\
  (forall n r, In (n, r) (originalTexts st_hello) ->
     cache st_hello !! cacheKey (original r) "fr" = None) /\
  match translatePage env_no_storage "fr" st_hello with
  | (r, st', evs) =>
      r = Ok tt /\ In EError evs /\ (forall t l, ~ In (EFetch t l) evs) /\
      dom st' = dom st_hello /\ cache st' = cache st_hello /\ store st' = store st_hello /\
      currentLang st' = currentLang st_hello /\ docLang st' = docLang st_hello /\
      isTranslating st' = false
  end.
Proof.
  assert (H2 : "fr" <> currentLang st_hello) by discriminate.
  assert (H3 : "fr" <> "en") by discriminate.
  assert (H5 : originalTexts st_hello <> []) by discriminate.
  assert (H6 : forall n r, In (n, r) (originalTexts st_hello) ->
                 cache st_hello !! cacheKey (original r) "fr" = None)
    by (intros; apply lookup_empty).
  split; [reflexivity|]. split; [exact H2|]. split; [exact H3|]. split; [reflexivity|].
  split; [exact H5|]. split; [exact H6|].
  apply translatePage_storage_unreadable; [reflexivity | exact H2 | exact H3 | reflexivity
                                          | exact H5 | exact H6].
Defined.


(** ** Nodes without a record *)

Section Untouched.
Variable n : nat.
Variable v : option string.
Variable R : list (nat * TextRecord).

Definition keeps (s : St) : Prop := dom s !! n = v /\ originalTexts s = R.

Let E := awaits (fun _ _ => True).

Lemma keeps_cache s f : keeps s -> keeps (set_cache f s).
Proof. intros H; exact H. Qed.
Lemma keeps_store s f : keeps s -> keeps (set_store f s).
Proof. intros H; exact H. Qed.

Lemma start_all_nodes env lang b st :
  match start_all env lang b st with
  | (Ok ps, _, _) => forall node d s, In (PRun node d s) ps -> In node b
  | _ => True
  end.
Proof.
  revert st. induction b as [|x b IH]; intros st; [intros ? ? ? []|].
  cbn [start_all]. unfold mbind at 1, M_bind at 1, get. cbv beta iota.
  set (first := match lookup_node (originalTexts st) x with
                | Some data => s ← gct_start env (original data) lang; mret (PRun x data s)
                | None => mret PReject
                end).
  assert (Hf : match first st with
               | (Ok p, _, _) => forall node d s, p = PRun node d s -> node = x
               | _ => True
               end).
  { unfold first. destruct (lookup_node (originalTexts st) x) as [data|].
    - unfold mbind, M_bind, mret, M_ret.
      destruct (gct_start env (original data) lang st) as [[[s0|] st1] e1]; [|exact Logic.I].
      intros ? ? ? [= -> _ _]. reflexivity.
    - intros ? ? ? [=]. }
  unfold mbind at 1, M_bind at 1.
  destruct (first st) as [[[p|] st1] e1]; [|exact Logic.I].
  unfold mbind at 1, M_bind at 1. specialize (IH st1).
  destruct (start_all env lang b st1) as [[[ps|] st2] e2]; [|exact Logic.I].
  intros node d s [Hn|Hn].
  - left. symmetry. exact (Hf _ _ _ Hn).
  - right. exact (IH node d s Hn).
Qed.

Lemma finish_all_keeps env lang ps :
  (forall node d s, In (PRun node d s) ps -> node <> n) ->
  Inv keeps E (finish_all env lang ps).
Proof.
  induction ps as [|p ps IH]; intros Hps; cbn [finish_all]; [apply Inv_ret|].
  destruct p as [node d s|].
  - apply Inv_bind; [apply Inv_attempt, Inv_bind|].
    + apply Inv_settle; [exact keeps_cache | exact keeps_store].
    + intros t. unfold apply_result. destruct (_ && _); [|apply Inv_ret].
      apply Inv_modify. intros st [Hd Hr]. split; [|exact Hr].
      cbn. rewrite lookup_insert_ne; [exact Hd|].
      exact (Hps node d s (or_introl eq_refl)).
    + intros r. apply Inv_bind; [|intros; apply Inv_ret].
      apply IH. intros node' d' s' Hin. exact (Hps node' d' s' (or_intror Hin)).
  - apply Inv_bind; [|intros; apply Inv_ret].
    apply IH. intros node' d' s' Hin. exact (Hps node' d' s' (or_intror Hin)).
Qed.

Lemma process_batch_keeps env lang b :
  ~ In n b -> Inv keeps E (process_batch env lang b).
Proof.
  intros Hb st H. unfold process_batch. unfold mbind at 1, M_bind at 1.
  pose proof (Inv_start_all keeps (fun _ _ => True) keeps_cache env lang b st H) as Hs.
  pose proof (start_all_nodes env lang b st) as Hn.
  destruct (start_all env lang b st) as [[[ps|] st1] e1]; [|exact Hs].
  destruct Hs as [H1 He1].
  assert (Hk : Inv keeps E (suspend;; rejected ← finish_all env lang ps;
                 if (rejected : bool) then throw (A:=unit) else mret tt)).
  { apply Inv_bind; [apply Inv_suspend; intros; exact Logic.I|]. intros _.
    apply Inv_bind; [|intros []; [apply Inv_throw | apply Inv_ret]].
    apply finish_all_keeps. intros node d s Hin ->. exact (Hb (Hn _ _ _ Hin)). }
  specialize (Hk st1 H1).
  destruct ((suspend;; rejected ← finish_all env lang ps;
             if (rejected : bool) then throw (A:=unit) else mret tt) st1) as [[r st2] e2].
  destruct Hk as [H2 He2]. split; [exact H2 | apply Forall_app; auto].
Qed.

Lemma In_take_drop (x : nat) k i l : In x (take k (drop i l)) -> In x l.
Proof.
  intros H. apply list_elem_of_In in H. apply list_elem_of_In.
  apply (subseteq_drop i l), (subseteq_take k (drop i l)), H.
Qed.

Lemma batch_loop_keeps env lang nodes i fuel :
  ~ In n nodes -> Inv keeps E (batch_loop env lang nodes i fuel).
Proof.
  intros Hn. revert i. induction fuel as [|f IH]; intros i; cbn [batch_loop]; [apply Inv_ret|].
  destruct (Nat.ltb i (length nodes)); [|apply Inv_ret].
  apply Inv_bind; [apply process_batch_keeps; intros Hin; exact (Hn (In_take_drop _ _ _ _ Hin))|].
  intros _. apply Inv_bind; [|intros _; apply IH].
  destruct (Nat.ltb _ _); [apply Inv_pause; intros; exact Logic.I | apply Inv_ret].
Qed.

Lemma translateToLanguage_keeps env lang :
  ~ In n (map fst R) -> Inv keeps E (translateToLanguage env lang).
Proof.
  intros Hn. unfold translateToLanguage. apply Inv_get_bind. intros s [_ Hr].
  cbv zeta. apply batch_loop_keeps. rewrite Hr. exact Hn.
Qed.

Lemma restoreOriginal_keeps :
  ~ In n (map fst R) -> Inv keeps E restoreOriginal.
Proof.
  intros Hn. unfold restoreOriginal. apply Inv_get_bind. intros s [Hd Hr].
  apply Inv_modify. intros st [Hd' Hr']. split; [|exact Hr'].
  cbn. rewrite Hr, restore_notin by exact Hn. exact Hd'.
Qed.

Lemma translatePage_keeps env lang :
  ~ In n (map fst R) -> Inv keeps E (translatePage env lang).
Proof.
  intros Hn. unfold translatePage. apply Inv_get_bind. intros s _.
  destruct (_ || _); [apply Inv_ret|].
  unfold setLoading.
  apply Inv_bind; [apply Inv_modify; intros ? H; exact H|]. intros _.
  apply Inv_bind; [apply Inv_modify; intros ? H; exact H|]. intros _.
  apply Inv_try_finally.
  - apply Inv_try_catch; [|apply Inv_emit; exact Logic.I].
    unfold translatePage_body.
    apply Inv_bind.
    { destruct (String.eqb lang "en").
      - apply Inv_bind; [apply restoreOriginal_keeps, Hn|].
        intros _. apply Inv_suspend. intros; exact Logic.I.
      - apply Inv_bind; [apply translateToLanguage_keeps, Hn|].
        intros _. apply Inv_suspend. intros; exact Logic.I. }
    intros _. apply Inv_bind; [apply Inv_modify; intros ? H; exact H|]. intros _.
    apply Inv_bind; [apply Inv_modify; intros ? H; exact H|]. intros _.
    apply Inv_bind; [apply Inv_setItem; exact keeps_store|]. intros _.
    apply Inv_emit. exact Logic.I.
  - apply Inv_bind; [apply Inv_modify; intros ? H; exact H|]. intros _. apply Inv_modify; intros ? H; exact H.
Qed.
End Untouched.

(** [translatePage] never changes the text of a node without a record,
    and it never changes the records. *)
Theorem translatePage_unrecorded_untouched env lang st n :
  ~ In n (map fst (originalTexts st)) ->
  match translatePage env lang st with
  | (_, st', _) => dom st' !! n = dom st !! n /\ originalTexts st' = originalTexts st
  end.
Proof.
  intros Hn.
  pose proof (translatePage_keeps n (dom st !! n) (originalTexts st) env lang Hn st
                (conj eq_refl eq_refl)) as H.
  destruct (translatePage env lang st) as [[r st'] e]. apply H.
Qed.

(** A page with the year in [#date] (node 1, all digits, not recorded). *)
Definition st_dated : St :=
  mkSt (<[1 := "2026"]> {[0 := "Hello world"]}) [(0, mkRec 0 "Hello world" "p")]
       ∅ ∅ "en" false false "en".

Lemma translatePage_unrecorded_untouched_witness :
  ~ In 1 (map fst (originalTexts st_dated)) /\
  match translatePage env_bonjour "fr" st_dated with
  | (_, st', _) => dom st' !! 1 = dom st_dated !! 1 /\ originalTexts st' = originalTexts st_dated
  end.
Proof.
  assert (H : ~ In 1 (map fst (originalTexts st_dated))) by (cbn; intros [H|[]]; discriminate).
  split; [exact H | apply translatePage_unrecorded_untouched; exact H].
Defined.


(** ** Page start *)

Ltac boot_unfold :=
  unfold startup, onDOMContentLoaded, querySelector_option, getItem, attempt,
         mbind, M_bind, mret, M_ret, get, modify, emit, throw, try_catch;
  cbv zeta.

(** At page start with no saved language (or an empty one), the page is
    extracted and not translated: no request, the text is unchanged, the
    language is ["en"]; the select and [lang] show ["en"] when the select
    has that option. *)
Theorem startup_no_saved_language env query doc st b :
  getItem_throws env = false ->
  (store st !! "site_language" = None \/ store st !! "site_language" = Some "") ->
  query "en" = Some b ->
  match startup env query doc st with
  | (r, st', evs) =>
      r = Ok (if b then Some "en" else None) /\
      (forall t l, ~ In (EFetch t l) evs) /\
      dom st' = dom st /\ cache st' = ∅ /\ currentLang st' = "en" /\
      docLang st' = (if b then "en" else docLang st) /\
      originalTexts st' = record_nodes (dom st) [] (walk_body (dom st) doc) 0
  end.
Proof.
  intros Hg Hs Hq. boot_unfold. cbn -[extractText]. rewrite Hg. cbn -[extractText].
  destruct Hs as [-> | ->]; cbn -[extractText]; rewrite Hq;
    destruct b; cbn -[extractText]; rewrite extractText_eq; cbn.
  all: split; [reflexivity|]; split;
    [intros t l H; repeat destruct H as [H|H]; try discriminate; exact H|].
  all: repeat split; reflexivity.
Qed.

Lemma startup_no_saved_language_witness :
  getItem_throws env_bonjour = false /\
  (store (fresh page_p_text) !! "site_language" = None \/
   store (fresh page_p_text) !! "site_language" = Some "") /\
  select_en_fr "en" = Some true /\
  match startup env_bonjour select_en_fr page_p (fresh page_p_text) with
  | (r, st', evs) =>
      r = Ok (Some "en") /\
      (forall t l, ~ In (EFetch t l) evs) /\
      dom st' = dom (fresh page_p_text) /\ cache st' = ∅ /\ currentLang st' = "en" /\
      docLang st' = "en" /\
      originalTexts st' =
        record_nodes (dom (fresh page_p_text)) [] (walk_body (dom (fresh page_p_text)) page_p) 0
  end.
Proof.
  assert (H : store (fresh page_p_text) !! "site_language" = None \/
              store (fresh page_p_text) !! "site_language" = Some "")
    by (left; apply lookup_empty).
  split; [reflexivity|]. split; [exact H|]. split; [reflexivity|].
  exact (startup_no_saved_language env_bonjour select_en_fr page_p (fresh page_p_text) true
           eq_refl H eq_refl).
Defined.


(** At page start with [localStorage] unreadable, the handler throws
    (reported on the console) but the page is still extracted; it is not
    translated and the select is not set. *)
Theorem startup_storage_unreadable env query doc st :
  getItem_throws env = true ->
  match startup env query doc st with
  | (r, st', evs) =>
      r = Ok None /\ In EError evs /\
      (forall t l, ~ In (EFetch t l) evs) /\
      dom st' = dom st /\ currentLang st' = "en" /\ docLang st' = docLang st /\
      originalTexts st' = record_nodes (dom st) [] (walk_body (dom st) doc) 0
  end.
Proof.
  intros Hg. boot_unfold. cbn -[extractText]. rewrite Hg. cbn -[extractText].
  rewrite extractText_eq. cbn.
  split; [reflexivity|]. split; [auto|].
  split; [intros t l H; repeat destruct H as [H|H]; try discriminate; exact H|].
  repeat split; reflexivity.
Qed.

Lemma startup_storage_unreadable_witness :
  getItem_throws env_no_storage = true /\
  match startup env_no_storage select_en_fr page_p (fresh page_p_text) with
  | (r, st', evs) =>
      r = Ok None /\ In EError evs /\
      (forall t l, ~ In (EFetch t l) evs) /\
      dom st' = dom (fresh page_p_text) /\ currentLang st' = "en" /\
      docLang st' = docLang (fresh page_p_text) /\
      originalTexts st' =
        record_nodes (dom (fresh page_p_text)) [] (walk_body (dom (fresh page_p_text)) page_p) 0
  end.
Proof. split; [reflexivity | apply startup_storage_unreadable; reflexivity]. Defined.


Lemma translatePage_settles env lang st :
  exists st' evs, translatePage env lang st = (Ok tt, st', evs).
Proof.
  unfold translatePage. mcomp.
  destruct (isTranslating st || String.eqb lang (currentLang st)); cbn; [eauto|].
  destruct (translatePage_body env lang (set_loading true (set_isTranslating true st)))
    as [[[[]|] stb] eb]; cbn; eauto.
Qed.

(** At page start with a saved language other than ["en"], the page is
    extracted and then translated to it, whether or not the select has
    that option; only the select and the [lang] attribute depend on it. *)
Theorem startup_translates_saved env query doc st s b :
  getItem_throws env = false ->
  store st !! "site_language" = Some s -> s <> "" -> s <> "en" ->
  query s = Some b ->
  match startup env query doc st with
  | (r, st', evs) =>
      r = Ok (if b then Some s else None) /\
      match (extractText doc;; translatePage env s : M unit)
              (if b then set_docLang s (Translator_new st) else Translator_new st) with
      | (_, st'', evs'') => st' = st'' /\ evs = EStoreRead "site_language" :: evs''
      end
  end.
Proof.
  intros Hg Hs Hne Hen Hq.
  apply String.eqb_neq in Hne. apply String.eqb_neq in Hen.
  boot_unfold. cbn -[extractText translatePage]. rewrite Hg. cbn -[extractText translatePage].
  rewrite Hs, Hne. cbn -[extractText translatePage]. rewrite Hq.
  destruct b; cbn -[extractText translatePage]; rewrite ?Hne, ?Hen; cbn -[extractText translatePage]; rewrite ?Hne, ?Hen; cbn -[extractText translatePage];
    rewrite !extractText_eq; cbn -[translatePage].
  all: match goal with |- context [translatePage ?e ?l ?x] =>
         destruct (translatePage_settles e l x) as (st2 & e2 & ->) end.
  all: cbn; rewrite ?app_nil_r; auto.
Qed.

Lemma startup_translates_saved_witness :
  let st := set_store <["site_language" := "fr"]> (fresh page_p_text) in
  getItem_throws env_bonjour = false /\
  store st !! "site_language" = Some "fr" /\ "fr" <> "" /\ "fr" <> "en" /\
  select_en "fr" = Some false /\
  match startup env_bonjour select_en page_p st with
  | (r, st', evs) =>
      r = Ok None /\
      match (extractText page_p;; translatePage env_bonjour "fr" : M unit) (Translator_new st) with
      | (_, st'', evs'') => st' = st'' /\ evs = EStoreRead "site_language" :: evs''
      end
  end.
Proof.
  intros st.
  assert (H : store st !! "site_language" = Some "fr") by apply lookup_insert_eq.
  assert (H1 : "fr" <> "") by discriminate.
  assert (H2 : "fr" <> "en") by discriminate.
  split; [reflexivity|]. split; [exact H|]. split; [exact H1|]. split; [exact H2|].
  split; [reflexivity|].
  exact (startup_translates_saved env_bonjour select_en page_p st "fr" false
           eq_refl H H1 H2 eq_refl).
Defined.

(* ================================================================== *)
(** ** A translation equal to the original text *)















(** A run to [lang] in which the API answers the recorded original text
    [original data] of node [n] with a value that normalises to that
    same text. *)
Section SameOriginal.
Context (env : Env) (lang : string) (n : nat) (data : TextRecord)
        (R : list (nat * TextRecord)) (d0 : option string) (s : string).
Hypothesis Hn : lookup_node R n = Some data.
Hypothesis Hget : getItem_throws env = false.
Hypothesis Hset : setItem_throws env = false.
Hypothesis Hr : remote_success (fetch_resp env (original data) lang) = Some s.
Hypothesis Heq : trim (strip_quotes s) = original data.

Local Abbreviation o := (original data).
Local Abbreviation k := (cacheKey (original data) lang).
Local Abbreviation lk := (localStorageKey (cacheKey (original data) lang)).
















End SameOriginal.



